(** * owl/app.py: the run console of the OWL agent scripts

    A shallow embedding of the process-supervision and log-interpretation core
    of [owl/app.py], and the properties of its specification.

    Conventions of the embedding.
    - A Python [str] is the list of its Unicode code points ([list N]).
    - A Python [dict] whose iteration order is observable (the entries written
      back to the dotfile, the members of a JSON object) is an association
      list kept without repeated keys by [Py.dict_set]; [os.environ], whose
      order is never observed, is a [gmap].
    - Code that can raise returns a [Py.result]; [try]/[except] is [Py.catch].
    - What the driver loop of [run_script] observes of its surroundings (the
      clock, the child process, the lines the relay thread queued) is an
      explicit input, and what it does to them (spawning, terminating,
      yielding a snapshot) is an explicit trace of events. *)

From Stdlib Require Import ZArith NArith List Bool Lia String Ascii.
From Stdlib Require Import DecimalString DecimalZ.
From stdpp Require Import base decidable option list countable gmap.

Local Open Scope N_scope.

(** ** Python values used by the program *)

Module Py.

(** A character is its code point, a [str] the sequence of its characters. *)
Definition char : Type := N.
Definition str : Type := list N.

(** *** Literals

    [u "..."] reads a literal of this file (UTF-8 bytes) as a [str]. *)

Fixpoint utf8_decode (bs : list N) : str :=
  match bs with
  | [] => []
  | b :: r =>
    if b <? 128 then b :: utf8_decode r
    else if b <? 224 then
      match r with
      | b1 :: r1 => ((b - 192) * 64 + (b1 - 128)) :: utf8_decode r1
      | _ => []
      end
    else if b <? 240 then
      match r with
      | b1 :: b2 :: r2 =>
        ((b - 224) * 4096 + (b1 - 128) * 64 + (b2 - 128)) :: utf8_decode r2
      | _ => []
      end
    else
      match r with
      | b1 :: b2 :: b3 :: r3 =>
        ((b - 240) * 262144 + (b1 - 128) * 4096 + (b2 - 128) * 64 + (b3 - 128))
          :: utf8_decode r3
      | _ => []
      end
  end.

Definition u (s : string) : str :=
  utf8_decode (List.map N_of_ascii (list_ascii_of_string s)).

(** [q "..."] is [u] with every apostrophe read as a double quote (code point
    34), for the JSON texts of the examples. *)
Definition q (s : string) : str :=
  List.map (fun c => if c =? 39 then 34 else c) (u s).

(** *** [str] methods *)

(** The characters [str.strip()] removes: [Py_UNICODE_ISSPACE]. *)
Definition isspace (c : char) : bool :=
  ((9 <=? c) && (c <=? 13)) || ((28 <=? c) && (c <=? 32))
  || (c =? 133) || (c =? 160) || (c =? 5760)
  || ((8192 <=? c) && (c <=? 8202))
  || (c =? 8232) || (c =? 8233) || (c =? 8239) || (c =? 8287) || (c =? 12288).

Fixpoint lstrip (s : str) : str :=
  match s with
  | c :: r => if isspace c then lstrip r else s
  | [] => []
  end.

Definition rstrip (s : str) : str := reverse (lstrip (reverse s)).

(** [s.strip()] *)
Definition strip (s : str) : str := lstrip (rstrip s).

(** [s.startswith(p)] *)
Fixpoint startswith (p s : str) : bool :=
  match p, s with
  | [], _ => true
  | a :: p', b :: s' => (a =? b) && startswith p' s'
  | _ :: _, [] => false
  end.

(** [s.find(sub)]: the lowest index at which [sub] occurs, [None] for -1. *)
Fixpoint find (sub s : str) : option nat :=
  if startswith sub s then Some 0%nat
  else match s with
       | [] => None
       | _ :: r => S <$> find sub r
       end.

(** [sub in s] *)
Definition contains (sub s : str) : bool :=
  match find sub s with Some _ => true | None => false end.

(** [s.split(sep, 1)] when [sep] occurs in [s]: the two parts around its first
    occurrence. ([None] when it does not occur: Python then returns the
    one-element list [[s]].) *)
Definition split_once (sep s : str) : option (str * str) :=
  i ← find sep s; Some (take i s, drop (i + length sep)%nat s).

(** [s.replace(old, new)] for a non-empty [old]: the occurrences of [old] are
    replaced from left to right, without overlap. Every step consumes a
    character, so [length s] steps reach the end. *)
Fixpoint replace_from (steps : nat) (old new s : str) : str :=
  match steps with
  | O => s
  | S steps' =>
    match s with
    | [] => []
    | c :: r =>
      if startswith old s
      then new ++ replace_from steps' old new (drop (length old) s)
      else c :: replace_from steps' old new r
    end
  end.
Definition replace (old new s : str) : str := replace_from (length s) old new s.

(** ["".join(parts)] *)
Definition join (parts : list str) : str := concat parts.

(** [text] as the lines a text file yields when iterated: each line keeps its
    newline, the last one may lack it. *)
Fixpoint lines_from (cur : str) (text : str) : list str :=
  match text with
  | [] => match cur with [] => [] | _ => [reverse cur] end
  | c :: r => if c =? 10 then reverse (c :: cur) :: lines_from [] r
              else lines_from (c :: cur) r
  end.
Definition readlines (text : str) : list str := lines_from [] text.

(** [str(n)] for an [int]. *)
Definition str_of_int (n : Z) : str :=
  u (NilEmpty.string_of_int (Z.to_int n)).

(** *** Exceptions *)

Inductive exn : Type :=
  | JSONDecodeError
  | TypeError
  | KeyError
  | IndexError
  | RecursionError.

(** Every exception above derives from [Exception]. *)
Definition is_Exception (e : exn) : bool := true.

Definition is_JSONDecodeError (e : exn) : bool :=
  match e with JSONDecodeError => true | _ => false end.

Inductive result (A : Type) : Type :=
  | Ok (a : A)
  | Raise (e : exn).
Arguments Ok {A} a.
Arguments Raise {A} e.

Definition bind {A B} (k : A → result B) (r : result A) : result B :=
  match r with Ok a => k a | Raise e => Raise e end.

(** [try: body / except cls: handler] *)
Definition catch {A} (body : result A) (cls : exn → bool) (handler : result A)
  : result A :=
  match body with
  | Ok a => Ok a
  | Raise e => if cls e then handler else Raise e
  end.

(** *** Insertion-ordered dictionaries *)

Definition dict (V : Type) : Type := list (str * V).

Fixpoint dict_get {V} (k : str) (d : dict V) : option V :=
  match d with
  | [] => None
  | (k', v) :: d' => if decide (k = k') then Some v else dict_get k d'
  end.

(** [d[k] = v]: an existing key keeps its place, a new one goes last. *)
Fixpoint dict_set {V} (k : str) (v : V) (d : dict V) : dict V :=
  match d with
  | [] => [(k, v)]
  | (k', v') :: d' =>
    if decide (k = k') then (k, v) :: d' else (k', v') :: dict_set k v d'
  end.

Definition dict_has {V} (k : str) (d : dict V) : bool :=
  match dict_get k d with Some _ => true | None => false end.

(** [dict(pairs)] *)
Definition dict_of_pairs {V} (pairs : list (str * V)) : dict V :=
  fold_left (fun d kv => dict_set kv.1 kv.2 d) pairs [].

End Py.

#[global] Instance result_bind : MBind Py.result := @Py.bind.
#[global] Instance result_ret : MRet Py.result := @Py.Ok.

(** ** The JSON decoder ([json.loads])

    The decoder of Python's [json] module, after [json/decoder.py] and
    [json/scanner.py]. A number is kept as the text that denotes it. The
    nesting of the decoder's calls is bounded by [depth], and running out of
    it raises [RecursionError]; with the depth [loads] gives, that does not
    happen (lemma [loads_raises]). *)

Module Json.
Import Py.

#[warnings="-register-all"]
Inductive json : Type :=
  | JNull
  | JBool (b : bool)
  | JNumber (text : str)
  | JString (s : str)
  | JArray (items : list json)
  | JObject (members : dict json).

(** [WHITESPACE_STR] *)
Definition is_ws (c : char) : bool :=
  (c =? 32) || (c =? 9) || (c =? 10) || (c =? 13).

Fixpoint skip_ws (s : str) : str :=
  match s with
  | c :: r => if is_ws c then skip_ws r else s
  | [] => []
  end.

Definition is_digit (c : char) : bool := (48 <=? c) && (c <=? 57).

Definition hex_digit (c : char) : option N :=
  if (48 <=? c) && (c <=? 57) then Some (c - 48)
  else if (65 <=? c) && (c <=? 70) then Some (c - 55)
  else if (97 <=? c) && (c <=? 102) then Some (c - 87)
  else None.

(** [_decode_uXXXX]: four hexadecimal digits. *)
Definition hex4 (a b c d : char) : option N :=
  x1 ← hex_digit a; x2 ← hex_digit b; x3 ← hex_digit c; x4 ← hex_digit d;
  Some (((x1 * 16 + x2) * 16 + x3) * 16 + x4).

(** [BACKSLASH]: the one-letter escapes. *)
Definition backslash (esc : char) : option char :=
  if esc =? 34 then Some 34          (* the double quote *)
  else if esc =? 92 then Some 92     (* the backslash *)
  else if esc =? 47 then Some 47     (* / *)
  else if esc =? 98 then Some 8      (* b *)
  else if esc =? 102 then Some 12    (* f *)
  else if esc =? 110 then Some 10    (* n *)
  else if esc =? 114 then Some 13    (* r *)
  else if esc =? 116 then Some 9     (* t *)
  else None.

Definition is_high_surrogate (c : N) : bool := (55296 <=? c) && (c <=? 56319).
Definition is_low_surrogate (c : N) : bool := (56320 <=? c) && (c <=? 57343).

(** [scanstring] (strict): [s] starts after the opening quote; the result is
    the decoded string and the text after the closing quote. [acc] holds the
    characters decoded so far, last first. *)
Fixpoint scanstring (s : str) (acc : str) : result (str * str) :=
  match s with
  | [] => Raise JSONDecodeError                  (* unterminated string *)
  | c :: r =>
    if c =? 34 then Ok (reverse acc, r)
    else if c =? 92 then
      match r with
      | [] => Raise JSONDecodeError
      | esc :: r1 =>
        if esc =? 117 then
          match r1 with
          | h1 :: h2 :: h3 :: h4 :: r2 =>
            match hex4 h1 h2 h3 h4 with
            | None => Raise JSONDecodeError      (* invalid \uXXXX escape *)
            | Some uni =>
              match r2 with
              | b :: l :: g1 :: g2 :: g3 :: g4 :: r3 =>
                if is_high_surrogate uni && (b =? 92) && (l =? 117) then
                  match hex4 g1 g2 g3 g4 with
                  | None => Raise JSONDecodeError
                  | Some uni2 =>
                    if is_low_surrogate uni2
                    then scanstring r3
                           ((65536 + (uni - 55296) * 1024 + (uni2 - 56320)) :: acc)
                    else scanstring r2 (uni :: acc)
                  end
                else scanstring r2 (uni :: acc)
              | _ => scanstring r2 (uni :: acc)
              end
            end
          | _ => Raise JSONDecodeError
          end
        else
          match backslash esc with
          | Some ch => scanstring r1 (ch :: acc)
          | None => Raise JSONDecodeError        (* invalid escape *)
          end
      end
    else if c <? 32 then Raise JSONDecodeError   (* control character *)
    else scanstring r (c :: acc)
  end.

Fixpoint span_digits (s : str) : str * str :=
  match s with
  | c :: r => if is_digit c then let '(ds, t) := span_digits r in (c :: ds, t)
              else ([], s)
  | [] => ([], [])
  end.

(** [NUMBER_RE]: an optional minus sign, [0] or a digit from 1 to 9 followed
    by digits; then, each optional, a fraction (a dot and digits) and an
    exponent (e or E, an optional sign, digits). *)
Definition match_number (s : str) : option (str * str) :=
  let '(sign, s1) :=
    match s with
    | c :: r => if c =? 45 then ([45], r) else ([], s)
    | [] => ([], s)
    end in
  '(int, s2) ←
    match s1 with
    | c :: r =>
      if c =? 48 then Some ([48], r)
      else if is_digit c then let '(ds, t) := span_digits r in Some (c :: ds, t)
      else None
    | [] => None
    end;
  let '(frac, s3) :=
    match s2 with
    | c :: r =>
      if c =? 46 then
        match span_digits r with
        | ([], _) => ([], s2)
        | (ds, t) => (c :: ds, t)
        end
      else ([], s2)
    | [] => ([], s2)
    end in
  let '(exp, s4) :=
    match s3 with
    | c :: r =>
      if (c =? 101) || (c =? 69) then
        let '(esign, r') :=
          match r with
          | c' :: t => if (c' =? 45) || (c' =? 43) then ([c'], t) else ([], r)
          | [] => ([], r)
          end in
        match span_digits r' with
        | ([], _) => ([], s3)
        | (ds, t) => (c :: esign ++ ds, t)
        end
      else ([], s3)
    | [] => ([], s3)
    end in
  Some (sign ++ int ++ frac ++ exp, s4).

(** [s[idx:idx + len(word)] == word], and the text after it. *)
Definition literal (word : string) (s : str) : option str :=
  if startswith (u word) s then Some (drop (length (u word)) s) else None.

(** [scan_once], [JSONArray] and [JSONObject]. [array_items] is the loop of
    [JSONArray] from an element on, [object_members] the loop of [JSONObject]
    from after the opening quote of a key on. *)
Fixpoint scan_once (depth : nat) (s : str) {struct depth}
  : result (json * str) :=
  match depth with
  | O => Raise RecursionError
  | S depth' =>
    match s with
    | [] => Raise JSONDecodeError                (* expecting value *)
    | c :: r =>
      if c =? 34 then
        '(v, t) ← scanstring r []; Ok (JString v, t)
      else if c =? 123 then
        let r1 := skip_ws r in
        match r1 with
        | c1 :: r2 =>
          if c1 =? 125 then Ok (JObject [], r2)
          else if c1 =? 34 then object_members depth' r2 []
          else Raise JSONDecodeError             (* expecting property name *)
        | [] => Raise JSONDecodeError
        end
      else if c =? 91 then
        let r1 := skip_ws r in
        match r1 with
        | c1 :: r2 =>
          if c1 =? 93 then Ok (JArray [], r2) else array_items depth' r1 []
        | [] => array_items depth' r1 []
        end
      else
        match literal "null" s, literal "true" s, literal "false" s with
        | Some t, _, _ => Ok (JNull, t)
        | _, Some t, _ => Ok (JBool true, t)
        | _, _, Some t => Ok (JBool false, t)
        | None, None, None =>
          match match_number s with
          | Some (text, t) => Ok (JNumber text, t)
          | None =>
            match literal "NaN" s, literal "Infinity" s, literal "-Infinity" s with
            | Some t, _, _ => Ok (JNumber (u "NaN"), t)
            | _, Some t, _ => Ok (JNumber (u "Infinity"), t)
            | _, _, Some t => Ok (JNumber (u "-Infinity"), t)
            | None, None, None => Raise JSONDecodeError
            end
          end
        end
    end
  end
with array_items (depth : nat) (s : str) (acc : list json) {struct depth}
  : result (json * str) :=
  match depth with
  | O => Raise RecursionError
  | S depth' =>
    '(v, s1) ← scan_once depth' s;
    match skip_ws s1 with
    | c :: r =>
      if c =? 93 then Ok (JArray (reverse (v :: acc)), r)
      else if c =? 44 then array_items depth' (skip_ws r) (v :: acc)
      else Raise JSONDecodeError                 (* expecting , delimiter *)
    | [] => Raise JSONDecodeError
    end
  end
with object_members (depth : nat) (s : str) (acc : list (str * json))
  {struct depth} : result (json * str) :=
  match depth with
  | O => Raise RecursionError
  | S depth' =>
    '(key, s1) ← scanstring s [];
    match skip_ws s1 with
    | c :: r =>
      if c =? 58 then
        '(v, s2) ← scan_once depth' (skip_ws r);
        match skip_ws s2 with
        | c2 :: r2 =>
          if c2 =? 125
          then Ok (JObject (dict_of_pairs (reverse ((key, v) :: acc))), r2)
          else if c2 =? 44 then
            match skip_ws r2 with
            | c3 :: r3 =>
              if c3 =? 34 then object_members depth' r3 ((key, v) :: acc)
              else Raise JSONDecodeError         (* expecting property name *)
            | [] => Raise JSONDecodeError
            end
          else Raise JSONDecodeError             (* expecting , delimiter *)
        | [] => Raise JSONDecodeError
        end
      else Raise JSONDecodeError                 (* expecting : delimiter *)
    | [] => Raise JSONDecodeError
    end
  end.

(** [json.loads(s)]: one value between optional white space, and nothing
    else. A text that starts with a byte order mark is refused. *)
Definition loads (s : str) : result json :=
  if startswith [65279] s then Raise JSONDecodeError
  else
    '(v, t) ← scan_once (2 * length s + 2) (skip_ws s);
    match skip_ws t with
    | [] => Ok v
    | _ :: _ => Raise JSONDecodeError            (* extra data *)
    end.

End Json.

(** ** The application: [owl/app.py] *)

Import Py Json.

(** *** Configuration tables *)

Definition SCRIPTS : dict str :=
  [ (u "Qwen Mini (中文)", u "run_qwen_mini_zh.py");
    (u "Qwen", u "run_qwen.py");
    (u "Mini", u "run_mini.py");
    (u "DeepSeek", u "run_deepseek.py");
    (u "默认", u "run.py");
    (u "GAIA Roleplaying", u "run_gaia_roleplaying.py") ].

Record env_var : Type := EnvVar {
  name : str;
  label : str;
  type : str;
  required : bool
}.

Definition ENV_GROUPS : dict (list env_var) :=
  [ (u "模型API",
     [ EnvVar (u "OPENAI_API_KEY") (u "OpenAI API密钥") (u "password") true;
       EnvVar (u "OPENAI_API_BASE_URL") (u "OpenAI API基础URL") (u "text") false;
       EnvVar (u "QWEN_API_KEY") (u "阿里云Qwen API密钥") (u "password") false;
       EnvVar (u "DEEPSEEK_API_KEY") (u "DeepSeek API密钥") (u "password") false ]);
    (u "搜索工具",
     [ EnvVar (u "GOOGLE_API_KEY") (u "Google API密钥") (u "password") false;
       EnvVar (u "SEARCH_ENGINE_ID") (u "搜索引擎ID") (u "text") false ]);
    (u "其他工具",
     [ EnvVar (u "HF_TOKEN") (u "Hugging Face令牌") (u "password") false;
       EnvVar (u "CHUNKR_API_KEY") (u "Chunkr API密钥") (u "password") false;
       EnvVar (u "FIRECRAWL_API_KEY") (u "Firecrawl API密钥") (u "password") false ]) ].

(** [for group in ENV_GROUPS.values(): for var in group: ... var["name"]] *)
Definition ENV_NAMES : list str :=
  List.map name (concat (List.map snd ENV_GROUPS)).

(** *** The configuration store: [load_env_vars], [save_env_vars]

    The store is the dotfile [.env] of the working directory ([None] when it
    does not exist, else its text as read in text mode) and the environment
    of the process. Assignments to [os.environ] and the writing of the
    dotfile are taken to succeed. *)

Record store : Type := Store {
  dotfile : option str;
  environ : gmap str str
}.

(** [dotenv.load_dotenv()] without [override]: of the bindings python-dotenv
    read from the dotfile it located ([found], a key without a value is bound
    to [None]), those whose key the environment lacks are added to it. *)
Definition load_dotenv (found : list (str * option str))
    (env : gmap str str) : gmap str str :=
  fold_left
    (fun env kv =>
       match env !! kv.1, kv.2 with
       | None, Some v => <[kv.1 := v]> env
       | _, _ => env
       end)
    found env.

Definition load_env_vars (found : list (str * option str)) (st : store)
  : dict str * store :=
  let env := load_dotenv found (environ st) in
  let env_vars :=
    fold_left (fun d k => dict_set k (default [] (env !! k)) d) ENV_NAMES [] in
  (env_vars, Store (dotfile st) env).

(** The body of the loop over the lines of the existing dotfile. *)
Definition read_env_line (existing_content : dict str) (line : str) : dict str :=
  let line := strip line in
  if negb (bool_decide (line = [])) && negb (startswith (u "#") line)
     && contains (u "=") line
  then
    match split_once (u "=") line with
    | Some (key, value) => dict_set (strip key) (strip value) existing_content
    | None => existing_content
    end
  else existing_content.

Definition read_env_file (file : option str) : dict str :=
  match file with
  | Some text => fold_left read_env_line (readlines text) []
  | None => []
  end.

(** The body of the loop over the submitted values: only a non-empty value is
    stored, in the entries to write and in the environment of the process. *)
Definition update_env_var (acc : dict str * gmap str str) (kv : str * str)
  : dict str * gmap str str :=
  if bool_decide (kv.2 = []) then acc
  else (dict_set kv.1 kv.2 acc.1, <[kv.1 := kv.2]> acc.2).

(** [f.write(f"{key}={value}\n")] for every entry. *)
Definition write_env_file (existing_content : dict str) : str :=
  concat (List.map (fun kv => kv.1 ++ u "=" ++ kv.2 ++ [10]) existing_content).

Definition save_env_vars (env_vars : dict str) (st : store) : str * store :=
  let existing_content := read_env_file (dotfile st) in
  let '(existing_content, env) :=
    fold_left update_env_var env_vars (existing_content, environ st) in
  (u "环境变量已保存", Store (Some (write_env_file existing_content)) env).

(** *** The log interpreter: [status_message], [extract_answer],
    [extract_chat_history] *)

(** The child process as [poll()] finds it: [returncode] is [None] while it
    runs. *)
Record Popen : Type := Process { returncode : option Z }.
Definition poll (process : Popen) : option Z := returncode process.

Definition status_message (process : Popen) : str :=
  match poll process with
  | None => u "⏳ 正在运行..."
  | Some code =>
    if (code =? 0)%Z then u "✅ 执行成功"
    else u "❌ 执行失败 (返回码: " ++ str_of_int code ++ u ")"
  end.

(** [log.split("Answer:", 1)[1]]; the index exists when the token occurs. *)
Fixpoint extract_answer (logs : list str) : str :=
  match logs with
  | [] => []
  | log :: rest =>
    if contains (u "Answer:") log
    then match split_once (u "Answer:") log with
         | Some (_, after) => strip after
         | None => []
         end
    else extract_answer rest
  end.

(** A transcript: the [[role, content]] pairs given to the chat component. *)
Definition transcript : Type := list (str * json).

(** [key in msg] for a decoded JSON value: a key of an object, a substring of
    a string, an element of an array; a [TypeError] for anything else. *)
Definition py_in (key : str) (msg : json) : result bool :=
  match msg with
  | JObject members => Ok (dict_has key members)
  | JString s => Ok (contains key s)
  | JArray items =>
    Ok (existsb (fun x => match x with
                          | JString s => bool_decide (s = key)
                          | _ => false
                          end) items)
  | _ => Raise TypeError
  end.

(** [msg[key]] for a string [key]: only an object has such an item. *)
Definition getitem (msg : json) (key : str) : result json :=
  match msg with
  | JObject members =>
    match dict_get key members with
    | Some v => Ok v
    | None => Raise KeyError
    end
  | _ => Raise TypeError
  end.

(** [for msg in chat_data]: what iterating a decoded value yields. *)
Definition py_iter (chat_data : json) : result (list json) :=
  match chat_data with
  | JArray items => Ok items
  | JObject members => Ok (List.map (fun kv => JString kv.1) members)
  | JString s => Ok (List.map (fun c => JString [c]) s)
  | _ => Raise TypeError
  end.

(** The loop that fills [formatted_chat]. *)
Fixpoint format_chat (chat_data : list json) (formatted_chat : transcript)
  : result transcript :=
  match chat_data with
  | [] => Ok formatted_chat
  | msg :: rest =>
    has_role ← py_in (u "role") msg;
    has_content ← (if has_role : bool then py_in (u "content") msg else Ok false);
    if has_role && has_content then
      r ← getitem msg (u "role");
      let role := match r with
                  | JString s => if bool_decide (s = u "user")
                                 then u "用户" else u "助手"
                  | _ => u "助手"
                  end in
      content ← getitem msg (u "content");
      format_chat rest (formatted_chat ++ [(role, content)])
    else format_chat rest formatted_chat
  end.

(** The loop over [range(i+1, min(i+10, len(logs)))]: the first of the lines
    [next] that has a closing bracket, up to and with that bracket. *)
Fixpoint closing_part (next : list str) : str :=
  match next with
  | [] => []
  | line :: rest =>
    match find (u "]") line with
    | Some end_idx => take (end_idx + 1)%nat line
    | None => closing_part rest
    end
  end.

(** [json_str] after the search for a closing bracket in the lines [rest] that
    follow the marker line. *)
Definition assemble (json_str : str) (rest : list str) : result str :=
  match last json_str with
  | None => Raise IndexError
  | Some c =>
    if negb (c =? 93) && negb (bool_decide (rest = []))
    then Ok (json_str ++ closing_part (take 9 rest))
    else Ok json_str
  end.

(** The body of the outer [try]: [logs] are the lines from index [i] on. *)
Fixpoint scan_chat_history (logs : list str) : result (option transcript) :=
  match logs with
  | [] => Ok None
  | log :: rest =>
    if contains (u "chat_history") log then
      match find (u "[") log with
      | Some start_idx =>
        json_str ← assemble (strip (drop start_idx log)) rest;
        catch
          (chat_data ← loads json_str;
           items ← py_iter chat_data;
           formatted_chat ← format_chat items [];
           Ok (Some formatted_chat))
          is_JSONDecodeError
          (scan_chat_history rest)
      | None => scan_chat_history rest
      end
    else scan_chat_history rest
  end.

Definition extract_chat_history (logs : list str) : result (option transcript) :=
  catch (scan_chat_history logs) is_Exception (Ok None).

(** *** The session driver: [run_script]

    [run_script] is a generator: it yields a snapshot on every pass of its
    polling loop and returns the final one. *)

(** The five values of a snapshot: status, answer, log text, path of the log
    file, chat history. *)
Record snapshot : Type := Snapshot {
  status : str;
  answer : str;
  log_text : str;
  log_file : str;
  chat_history : option transcript
}.

(** What the driver does to its surroundings. Creating the [logs] directory,
    the progress bar and the sleep between two passes are left out. *)
Inductive event : Type :=
  | Spawn (cmd : list str) (env : gmap str str)   (* subprocess.Popen(cmd, env=env) *)
  | Terminate                                     (* current_process.terminate() *)
  | Put (line : str)                              (* log_queue.put(line) *)
  | Yield (s : snapshot).

(** What a run request finds when it starts: [sys.executable], the time stamp
    of the log file name, [os.environ], and the clock. *)
Record request_env : Type := RequestEnv {
  executable : str;
  timestamp : str;
  os_environ : gmap str str;
  start_time : Z
}.

(** What the driver observes during one pass of the loop, a pass being entered
    when [current_process.poll()] is [None] in the loop condition: the clock at
    the time-out check, the child at the check made under the lock (read only
    when the budget is exceeded), the lines other threads put on [log_queue]
    since it was last emptied, and the child when the snapshot is taken. Clock
    readings are whole time units. *)
Record pass : Type := Pass {
  time_now : Z;
  at_lock : Popen;
  arrived : list str;
  at_yield : Popen
}.

(** What it observes once the loop is left: the lines put on the queue since,
    and the child when the final status is computed. *)
Record ending : Type := Ending {
  late : list str;
  at_return : Popen
}.

Definition timeout : Z := 1800.

Definition TIMEOUT_LINE : str := u "执行超时，已终止进程" ++ [10].

(** The state of the loop: the lines collected, the content of [log_queue],
    and the events so far (last first). *)
Record driver : Type := Driver {
  logs : list str;
  log_queue : list str;
  events : list event
}.

(** The [while current_process.poll() is None] loop over the passes in which
    the condition holds; when they are used up the child has exited. *)
Fixpoint drive (start : Z) (file : str) (passes : list pass) (d : driver)
  : driver :=
  match passes with
  | [] => d
  | p :: rest =>
    let queue := log_queue d ++ arrived p in
    if (timeout <? time_now p - start)%Z then
      match poll (at_lock p) with
      | None =>
        Driver (logs d) (queue ++ [TIMEOUT_LINE])
               (Put TIMEOUT_LINE :: Terminate :: events d)
      | Some _ => Driver (logs d) queue (events d)
      end
    else
      let logs := logs d ++ queue in
      let shot := Snapshot (status_message (at_yield p)) (extract_answer logs)
                           (join logs) file None in
      drive start file rest (Driver logs [] (Yield shot :: events d))
  end.

(** A run of the generator: the events in order, and what it returned or
    raised. *)
Record run : Type := Run {
  trace : list event;
  returned : result snapshot
}.

Definition run_script (script_dropdown question : str) (env : request_env)
    (passes : list pass) (fin : ending) : run :=
  match dict_get script_dropdown SCRIPTS with
  | None => Run [] (Raise KeyError)
  | Some script_name =>
    if bool_decide (strip question = []) then
      Run [] (Ok (Snapshot (u "请输入问题！") [] [] [] None))
    else
      let file := u "logs/" ++ replace (u ".py") [] script_name ++ u "_"
                  ++ timestamp env ++ u ".log" in
      let cmd := [executable env; u "owl/script_adapter.py";
                  u "owl/" ++ script_name] in
      let child_env := <[u "OWL_QUESTION" := question]> (os_environ env) in
      let d := drive (start_time env) file passes
                 (Driver [] [] [Spawn cmd child_env]) in
      let logs := logs d ++ log_queue d ++ late fin in
      Run (reverse (events d))
          (chat_history ← extract_chat_history logs;
           Ok (Snapshot (status_message (at_return fin)) (extract_answer logs)
                        (join logs) file chat_history))
  end.

(** *** The relay thread of [run_script]: [read_output]

    [reads] are the results of the successive calls of
    [current_process.stdout.readline()], the empty string standing for the
    end of the output; [f] is the text of the log file, opened anew for
    writing, and [queue] the content of [log_queue]. *)
Fixpoint read_output (reads : list str) (f : str) (queue : list str)
  : str * list str :=
  match reads with
  | [] => (f, queue)
  | line :: rest =>
    if bool_decide (line = []) then (f, queue)       (* the sentinel of [iter] *)
    else read_output rest (f ++ line) (queue ++ [line])
  end.

(** *** The other handlers of the interface *)

Definition SCRIPT_DESCRIPTIONS : dict str :=
  [ (u "Qwen Mini (中文)", u "使用阿里云Qwen模型的中文版本，适合中文问答和任务");
    (u "Qwen", u "使用阿里云Qwen模型，支持多种工具和功能");
    (u "Mini", u "轻量级版本，使用OpenAI GPT-4o模型");
    (u "DeepSeek", u "使用DeepSeek模型，适合复杂推理任务");
    (u "默认", u "默认OWL实现，使用OpenAI GPT-4o模型和全套工具");
    (u "GAIA Roleplaying", u "GAIA基准测试实现，用于评估模型能力") ].

(** [SCRIPT_DESCRIPTIONS.get(script_name, "无描述信息")] *)
Definition get_script_info (script_name : str) : str :=
  default (u "无描述信息") (dict_get script_name SCRIPT_DESCRIPTIONS).

(** What [terminate_process] does to the child and to the queue. *)
Inductive stop_event : Type :=
  | SendCtrlBreak            (* current_process.send_signal(signal.CTRL_BREAK_EVENT) *)
  | SendTerminate            (* current_process.terminate() *)
  | WaitFor (seconds : Z)    (* current_process.wait(timeout=seconds) *)
  | Kill                     (* current_process.kill() *)
  | QueuePut (line : str).   (* log_queue.put(line) *)

(** The handler of the stop button. [current_process] is the global of that
    name ([None] before the first run), [os_name] is [os.name], and [expired]
    tells whether the wait of five seconds ends in [TimeoutExpired]. The
    result is what was done, in order, and the message returned. *)
Definition terminate_process (current_process : option Popen) (os_name : str)
    (expired : bool) : list stop_event * str :=
  match current_process with
  | Some process =>
    match poll process with
    | None =>
      ([if bool_decide (os_name = u "nt") then SendCtrlBreak else SendTerminate;
        WaitFor 5]
       ++ (if expired then [Kill] else [])
       ++ [QueuePut (u "进程已终止" ++ [10])],
       u "✅ 进程已终止")
    | Some _ => ([], u "❌ 没有正在运行的进程")
    end
  | None => ([], u "❌ 没有正在运行的进程")
  end.


(** ** Vocabulary of the specification *)

(** [sub] occurs in [s] with [before] in front of it and [after] behind. *)
Definition occurs_at (sub s before after : str) : Prop :=
  s = before ++ sub ++ after.

(** [sub] occurs in [s]. *)
Definition occurs (sub s : str) : Prop :=
  ∃ before after, occurs_at sub s before after.

(** The occurrence after [before] is the first one of [sub] in [s]. *)
Definition first_occurrence (sub s before after : str) : Prop :=
  occurs_at sub s before after
  ∧ ∀ before' after', occurs_at sub s before' after' →
                      (length before ≤ length before')%nat.

(** [t] is [s] without the white space around it. *)
Definition trimmed (s t : str) : Prop :=
  (∃ w1 w2, s = w1 ++ t ++ w2
            ∧ Forall (fun c => isspace c = true) w1
            ∧ Forall (fun c => isspace c = true) w2)
  ∧ (∀ c, head t = Some c → isspace c = false)
  ∧ (∀ c, last t = Some c → isspace c = false).

(** [s] is empty or only white space. *)
Definition blank (s : str) : Prop := Forall (fun c => isspace c = true) s.



(** A JSON text for a list of messages, each a [role] and a [content]
    string, laid out as [json.dumps] does (a comma and a space between two
    elements, a colon and a space after a key), when the strings are [plain]:
    made of characters that stand for themselves between the quotes (no
    double quote, no backslash, no control character). *)
Definition plain (s : str) : Prop :=
  Forall (fun c => c ≠ 34 ∧ c ≠ 92 ∧ 32 ≤ c) s.

Definition dumps_message (m : str * str) : str :=
  q "{'role': '" ++ m.1 ++ q "', 'content': '" ++ m.2 ++ q "'}".

Fixpoint dumps_messages (ms : list (str * str)) : str :=
  match ms with
  | [] => []
  | m :: ms' =>
    dumps_message m
    ++ match ms' with [] => [] | _ => u ", " ++ dumps_messages ms' end
  end.

Definition dumps (ms : list (str * str)) : str :=
  u "[" ++ dumps_messages ms ++ u "]".

(** What such a list decodes to, and the transcript entry of a message. *)
Definition message (m : str * str) : json :=
  JObject [(u "role", JString m.1); (u "content", JString m.2)].

Definition message_entry (m : str * str) : str * json :=
  (if bool_decide (m.1 = u "user") then u "用户" else u "助手", JString m.2).

Definition is_yield (e : event) : Prop := ∃ s, e = Yield s.



(** The integer a decimal numeral denotes. *)
Definition decimal_value (s : str) : option Z :=
  Z.of_int <$> NilEmpty.int_of_string (string_of_list_ascii (List.map ascii_of_N s)).

(** An entry that a line [key=value] of the dotfile holds as it stands: key
    and value have no white space around them and no line break inside, and
    the key has no [=] and does not start a comment. A carriage return counts
    as a line break, since reading a file in text mode turns it into a
    newline. *)
Definition line_entry (kv : str * str) : Prop :=
  strip kv.1 = kv.1 ∧ strip kv.2 = kv.2
  ∧ head kv.1 ≠ Some 35 ∧ (61 ∉ kv.1)
  ∧ (10 ∉ kv.1) ∧ (10 ∉ kv.2) ∧ (13 ∉ kv.1) ∧ (13 ∉ kv.2).

(** A dotfile as text mode presents it: without carriage returns. *)
Definition text_mode (file : option str) : Prop :=
  ∀ text, file = Some text → 13 ∉ text.

(** The snapshots among [evs] (the last event first) were taken from logs
    that only grew, up to [current]: each shows the text and the answer of
    lines that begin [current], or the lines of the next snapshot. *)
Fixpoint staged (evs : list event) (current : list str) : Prop :=
  match evs with
  | [] => True
  | Yield s :: evs' =>
    ∃ lines more,
      current = lines ++ more
      ∧ log_text s = join lines ∧ answer s = extract_answer lines
      ∧ staged evs' lines
  | _ :: evs' => staged evs' current
  end.

(** A pass of the driver loop made within the time budget. *)
Definition within_budget (start : Z) (p : pass) : Prop :=
  (time_now p - start ≤ timeout)%Z.

(** * Properties *)

(** ** [str] methods *)

Section str_methods.
Implicit Types (s t sub sep : str) (c : char).

Lemma startswith_app p t : startswith p (p ++ t) = true.
Proof. induction p as [|a p IH]; simpl; [done|]. by rewrite N.eqb_refl. Qed.

Lemma startswith_inv p s : startswith p s = true → ∃ t, s = p ++ t.
Proof.
  revert s. induction p as [|a p IH]; intros s H; simpl in *; [by eexists|].
  destruct s as [|b s]; [done|].
  apply andb_true_iff in H as [Hab Hp]. apply N.eqb_eq in Hab as ->.
  destruct (IH _ Hp) as [t ->]. by eexists.
Qed.

Lemma startswith_spec p s : startswith p s = true ↔ ∃ t, s = p ++ t.
Proof.
  split; [apply startswith_inv|]. intros [t ->]. apply startswith_app.
Qed.

Lemma find_Some sub s i :
  find sub s = Some i →
  ∃ after, s = take i s ++ sub ++ after ∧ length (take i s) = i.
Proof.
  revert i. induction s as [|c s IH]; intros i; simpl.
  - destruct (startswith sub []) eqn:E; [|done].
    intros [= <-]. apply startswith_inv in E as [t E]. by exists t.
  - destruct (startswith sub (c :: s)) eqn:E.
    + intros [= <-]. apply startswith_inv in E as [t E]. by exists t.
    + destruct (find sub s) as [j|] eqn:F; [|done]. simpl.
      intros [= <-]. destruct (IH j eq_refl) as (after & Hs & Hl).
      exists after. simpl. split; [by rewrite <- Hs | by rewrite Hl].
Qed.

Lemma find_startswith sub s : startswith sub s = true → find sub s = Some 0%nat.
Proof. intros H. destruct s; simpl; by rewrite H. Qed.

Lemma find_first sub s before after :
  first_occurrence sub s before after → find sub s = Some (length before).
Proof.
  intros [Hocc Hmin]. unfold occurs_at in *. subst s.
  induction before as [|c before IH].
  - simpl. apply find_startswith. apply startswith_app.
  - cbn [app find]. destruct (startswith sub (c :: before ++ sub ++ after)) eqn:E.
    + apply startswith_inv in E as [t E].
      specialize (Hmin [] t E). simpl in Hmin. lia.
    + rewrite IH; [done|]. intros b' a' E'.
      specialize (Hmin (c :: b') a'). simpl in Hmin.
      rewrite E' in Hmin. specialize (Hmin eq_refl). lia.
Qed.

Lemma find_None sub s : find sub s = None → ¬ occurs sub s.
Proof.
  induction s as [|c s IH]; simpl.
  - destruct (startswith sub []) eqn:E; [done|]. intros _ (b & a & H).
    unfold occurs_at in H. destruct b; [|done]. simpl in H.
    by rewrite H, startswith_app in E.
  - destruct (startswith sub (c :: s)) eqn:E; [done|].
    destruct (find sub s) eqn:F; [done|]. intros _ (b & a & H).
    unfold occurs_at in H. destruct b as [|c' b]; simpl in H.
    + by rewrite H, startswith_app in E.
    + injection H as -> ->. apply IH; [done|]. by exists b, a.
Qed.

Lemma contains_spec sub s : contains sub s = true ↔ occurs sub s.
Proof.
  unfold contains. destruct (find sub s) as [i|] eqn:F.
  - split; [intros _|done]. apply find_Some in F as (a & H & _).
    by exists (take i s), a.
  - split; [done|]. intros H. by apply find_None in F.
Qed.

Lemma contains_false sub s : contains sub s = false ↔ ¬ occurs sub s.
Proof. rewrite <- contains_spec. by destruct (contains sub s). Qed.

(** [s.split(sep, 1)] cuts [s] around the first occurrence of [sep]. *)
Lemma split_once_first sep s before after :
  first_occurrence sep s before after →
  split_once sep s = Some (before, after).
Proof.
  intros H. unfold split_once. rewrite (find_first _ _ _ _ H). simpl.
  destruct H as [H _]. unfold occurs_at in H. subst s.
  rewrite take_app_length, app_assoc.
  rewrite drop_app_length'; [done | by rewrite length_app].
Qed.

(** [find] answers with the first occurrence. *)
Lemma find_is_first sub s i :
  find sub s = Some i →
  first_occurrence sub s (take i s) (drop (i + length sub) s).
Proof.
  intros F. destruct (find_Some _ _ _ F) as (after & Hs & Hl).
  assert (drop (i + length sub) s = after) as ->.
  { rewrite Hs at 1. rewrite <- Hl at 1. rewrite app_assoc.
    rewrite drop_app_length'; [done | by rewrite length_app]. }
  split; [done|]. intros b' a' H'. rewrite Hl.
  destruct (decide (i ≤ length b')%nat) as [|Hgt]; [done|]. exfalso.
  clear Hs Hl after. revert i b' H' F Hgt.
  induction s as [|c s IH]; intros i b' H' F Hgt.
  - simpl in F. destruct (startswith sub []); [|done]. injection F as <-. lia.
  - simpl in F. destruct (startswith sub (c :: s)) eqn:E.
    + injection F as <-. lia.
    + destruct (find sub s) as [j|] eqn:Fj; [|done]. injection F as <-.
      unfold occurs_at in H'. destruct b' as [|c' b']; simpl in H'.
      * by rewrite H', startswith_app in E.
      * injection H' as -> H'. eapply (IH j b'); [done|done|]. simpl in Hgt. lia.
Qed.

(** Where [sub] occurs there is a first occurrence of it. *)
Lemma occurs_first sub s :
  occurs sub s → ∃ before after, first_occurrence sub s before after.
Proof.
  intros H. apply contains_spec in H. unfold contains in H.
  destruct (find sub s) as [i|] eqn:F; [|done].
  eexists _, _. by apply find_is_first.
Qed.

Lemma lstrip_blank s : blank s → lstrip s = [].
Proof. induction 1 as [|c s Hc _ IH]; simpl; [done|]. by rewrite Hc. Qed.

Lemma strip_blank s : blank s → strip s = [].
Proof.
  intros H. unfold strip, rstrip. rewrite (lstrip_blank (reverse s)); [done|].
  unfold blank. by apply Forall_reverse.
Qed.

Lemma lstrip_split s :
  ∃ w, s = w ++ lstrip s ∧ blank w
       ∧ ∀ c, head (lstrip s) = Some c → isspace c = false.
Proof.
  induction s as [|c s (w & Hs & Hw & Hh)]; simpl.
  - exists []. repeat split; [constructor | done].
  - destruct (isspace c) eqn:E.
    + exists (c :: w). repeat split; [simpl; by rewrite <- Hs | by constructor | done].
    + exists []. repeat split; [constructor|]. by intros ? [= <-].
Qed.

Lemma lstrip_last s c :
  (∀ c, last s = Some c → isspace c = false) →
  last (lstrip s) = Some c → isspace c = false.
Proof.
  intros H. induction s as [|a s IH]; simpl; [done|].
  destruct (isspace a) eqn:E; [|by apply H].
  apply IH. intros c' Hc'. apply H. rewrite last_cons, Hc'. done.
Qed.

Lemma lstrip_app c x y :
  isspace c = false → lstrip (x ++ c :: y) = lstrip x ++ c :: y.
Proof.
  intros Hc. induction x as [|a x IH]; simpl; [by rewrite Hc|].
  by destruct (isspace a).
Qed.

Lemma rstrip_app c x y :
  isspace c = false → rstrip (x ++ c :: y) = x ++ c :: rstrip y.
Proof.
  intros Hc. unfold rstrip.
  rewrite reverse_app, reverse_cons, <- app_assoc. simpl.
  rewrite lstrip_app by done.
  rewrite reverse_app, reverse_cons, reverse_involutive, <- app_assoc. done.
Qed.

(** [s.strip()] is [s] without the white space around it. *)
Lemma strip_trimmed s : trimmed s (strip s).
Proof.
  unfold strip, rstrip.
  destruct (lstrip_split (reverse s)) as (w2 & H2 & Hw2 & Hh2).
  destruct (lstrip_split (reverse (lstrip (reverse s)))) as (w1 & H1 & Hw1 & Hh1).
  repeat split.
  - exists w1, (reverse w2). repeat split; [|done|].
    + rewrite app_assoc, <- H1. rewrite <- reverse_app, <- H2.
      by rewrite reverse_involutive.
    + by apply Forall_reverse.
  - done.
  - intros c. apply lstrip_last. intros c'.
    rewrite last_reverse. apply Hh2.
Qed.

Example strip_example : strip ([9] ++ u "  a b " ++ [13; 10]) = u "a b".
Proof. vm_compute. reflexivity. Qed.

Example find_example :
  find (u "Answer:") (u "The Answer: 42") = Some 4%nat
  ∧ find (u "Answer:") (u "no answer") = None.
Proof. split; vm_compute; reflexivity. Qed.

Example replace_example : replace (u ".py") [] (u "run_qwen.py") = u "run_qwen".
Proof. vm_compute. reflexivity. Qed.

Example readlines_example :
  readlines (u "a=1" ++ [10; 10] ++ u "b") = [u "a=1" ++ [10]; [10]; u "b"].
Proof. vm_compute. reflexivity. Qed.

Example str_of_int_example :
  str_of_int 0 = u "0" ∧ str_of_int 137 = u "137" ∧ str_of_int (-15) = u "-15".
Proof. repeat split; vm_compute; reflexivity. Qed.

End str_methods.

(** ** The JSON decoder *)

Section decoder.

Lemma bind_Ok {A B} (a : A) (k : A → result B) : (Ok a ≫= k) = k a.
Proof. done. Qed.

Lemma bind_Raise {A B} (e : exn) (k : A → result B) : (Raise e ≫= k) = Raise e.
Proof. done. Qed.

Lemma scanstring_plain s rest acc :
  plain s → scanstring (s ++ 34 :: rest) acc = Ok (reverse acc ++ s, rest).
Proof.
  intros H. revert acc. induction H as [|c s (H34 & H92 & H32) _ IH]; intros acc.
  - simpl. by rewrite app_nil_r.
  - cbn [app scanstring].
    destruct (N.eqb_spec c 34) as [|_]; [done|].
    destruct (N.eqb_spec c 92) as [|_]; [done|].
    destruct (N.ltb_spec c 32) as [|_]; [lia|].
    rewrite IH, reverse_cons, <- app_assoc. done.
Qed.

Lemma plain_role : plain (u "role").
Proof. repeat constructor; (done || vm_compute; discriminate). Qed.
Lemma plain_content : plain (u "content").
Proof. repeat constructor; (done || vm_compute; discriminate). Qed.

Lemma scan_string depth s rest :
  plain s → scan_once (S depth) (34 :: s ++ 34 :: rest) = Ok (JString s, rest).
Proof.
  intros H. cbn [scan_once N.eqb Pos.eqb]. by rewrite scanstring_plain.
Qed.

Lemma scan_message depth m rest :
  (4 ≤ depth)%nat → plain m.1 → plain m.2 →
  scan_once depth (dumps_message m ++ rest) = Ok (message m, rest).
Proof.
  intros Hd H1 H2. do 4 (destruct depth as [|depth]; [lia|]). clear Hd.
  unfold dumps_message.
  change (q "{'role': '") with ([123; 34] ++ u "role" ++ 34 :: [58; 32; 34]).
  change (q "', 'content': '")
    with (34 :: [44; 32; 34] ++ u "content" ++ 34 :: [58; 32; 34]).
  change (q "'}") with ([34; 125]).
  rewrite <- !app_assoc.
  cbn [app scan_once N.eqb Pos.eqb skip_ws is_ws orb].
  cbn [object_members].
  rewrite (scanstring_plain (u "role")) by apply plain_role. rewrite bind_Ok.
  cbn [app reverse rev_append skip_ws is_ws orb N.eqb Pos.eqb].
  rewrite scan_string by done. rewrite bind_Ok.
  cbn [app reverse rev_append skip_ws is_ws orb N.eqb Pos.eqb].
  rewrite <- app_assoc. cbn [app].
  rewrite (scanstring_plain (u "content")) by apply plain_content. rewrite bind_Ok.
  cbn [app reverse rev_append skip_ws is_ws orb N.eqb Pos.eqb].
  rewrite scan_string by done. rewrite bind_Ok.
  cbn [app reverse rev_append skip_ws is_ws orb N.eqb Pos.eqb].
  done.
Qed.

Lemma skip_ws_messages m ms rest :
  skip_ws (dumps_messages (m :: ms) ++ rest) = dumps_messages (m :: ms) ++ rest.
Proof. done. Qed.

Lemma array_items_messages depth ms rest acc :
  Forall (fun m => plain m.1 ∧ plain m.2) ms → ms ≠ [] →
  (length ms + 4 ≤ depth)%nat →
  array_items depth (dumps_messages ms ++ 93 :: rest) acc
  = Ok (JArray (reverse acc ++ List.map message ms), rest).
Proof.
  intros H. revert depth acc.
  induction H as [|m ms [H1 H2] Hms IH]; intros depth acc Hne Hd; [done|].
  destruct depth as [|depth]; [simpl in Hd; lia|]. simpl in Hd.
  cbn [array_items dumps_messages]. rewrite <- app_assoc.
  rewrite scan_message by (done || lia). rewrite bind_Ok.
  destruct ms as [|m' ms].
  - cbn [app skip_ws is_ws orb N.eqb Pos.eqb List.map]. by rewrite reverse_cons.
  - change (u ", ") with [44; 32]. cbn [app skip_ws is_ws orb N.eqb Pos.eqb].
    rewrite skip_ws_messages, IH by (done || lia).
    by rewrite reverse_cons, <- app_assoc.
Qed.

Lemma length_dumps_messages ms : (length ms ≤ length (dumps_messages ms))%nat.
Proof.
  induction ms as [|m ms IH]; [done|]. cbn [dumps_messages length].
  unfold dumps_message. rewrite !length_app. 
  change (length (q "{'role': '")) with 10%nat.
  destruct ms; simpl in *; lia.
Qed.

Lemma loads_dumps ms :
  Forall (fun m => plain m.1 ∧ plain m.2) ms →
  loads (dumps ms) = Ok (JArray (List.map message ms)).
Proof.
  intros H. unfold loads, dumps. change (u "[") with [91]. change (u "]") with [93].
  cbn [app startswith N.eqb Pos.eqb andb skip_ws is_ws orb].
  pose proof (length_dumps_messages ms) as Hlen.
  match goal with |- context [scan_once ?d _] =>
    destruct d as [|depth] eqn:Hdepth; [lia|]
  end.
  cbn [length] in Hdepth. rewrite length_app in Hdepth. cbn [length] in Hdepth.
  cbn [scan_once N.eqb Pos.eqb].
  destruct ms as [|m ms]; [done|].
  rewrite skip_ws_messages.
  assert (∃ t, dumps_messages (m :: ms) ++ [93] = 123 :: t) as [t Ht] by by eexists.
  rewrite Ht. cbn [N.eqb Pos.eqb]. rewrite <- Ht.
  rewrite array_items_messages; [done..|]. lia.
Qed.

Example loads_values :
  loads (q " [1, -2.5e+3, true, false, null, {}, [], {'a': 1, 'b': 2, 'a': 3}] ")
  = Ok (JArray [JNumber (u "1"); JNumber (u "-2.5e+3"); JBool true; JBool false;
                JNull; JObject []; JArray [];
                JObject [(u "a", JNumber (u "3")); (u "b", JNumber (u "2"))]]).
Proof. vm_compute. reflexivity. Qed.

Example loads_escapes :
  loads (q "['a\\b\n', '\u00e9', '\ud83d\ude00']")
  = Ok (JArray [JString [97; 92; 98; 10]; JString [233]; JString [128512]]).
Proof. vm_compute. reflexivity. Qed.

Example loads_errors :
  loads (q "[1,]") = Raise JSONDecodeError
  ∧ loads (q "[1 2]") = Raise JSONDecodeError
  ∧ loads (q "[01]") = Raise JSONDecodeError
  ∧ loads (q "['a'") = Raise JSONDecodeError
  ∧ loads (q "[] x") = Raise JSONDecodeError
  ∧ loads (q "{'a' 1}") = Raise JSONDecodeError
  ∧ loads [] = Raise JSONDecodeError.
Proof. repeat split; vm_compute; reflexivity. Qed.

(** *** The depth of the decoder

    What the decoder leaves is shorter than what it was given, and the depth
    [loads] gives it is never used up. *)












(** *** What the decoder takes

    What the decoder leaves is the end of the text it was given. *)

Lemma skip_ws_suffix s : skip_ws s `suffix_of` s.
Proof.
  induction s as [|c s IH]; simpl; [done|].
  destruct (is_ws c); [by apply suffix_cons_r | done].
Qed.

Lemma skip_ws_blank s : skip_ws s = [] → Forall (fun c => is_ws c = true) s.
Proof.
  induction s as [|c s IH]; simpl; [constructor|].
  destruct (is_ws c) eqn:E; [|done]. intros H. constructor; auto.
Qed.

Lemma span_digits_suffix s ds t : span_digits s = (ds, t) → t `suffix_of` s.
Proof.
  revert ds t. induction s as [|c s IH]; intros ds t; simpl.
  - by intros [= <- <-].
  - destruct (is_digit c).
    + destruct (span_digits s) as [ds' t']. intros [= <- <-].
      apply suffix_cons_r. by eapply IH.
    + by intros [= <- <-].
Qed.

Ltac chain :=
  solve
    [ reflexivity
    | assumption
    | match goal with
      | H : ?a `suffix_of` ?s |- _ `suffix_of` ?s =>
        etrans; [|exact H]; clear H; chain
      | H : ?a `suffix_of` skip_ws ?s |- _ `suffix_of` ?s =>
        etrans; [|apply skip_ws_suffix]; etrans; [|exact H]; clear H; chain
      end
    | apply suffix_cons_r; chain ].

Ltac suffixes :=
  repeat match goal with
         | H : span_digits _ = _ |- _ => apply span_digits_suffix in H
         | H : skip_ws ?s = _ |- _ =>
           let L := fresh "L" in
           pose proof (skip_ws_suffix s) as L; rewrite H in L; clear H
         end;
  chain.

Lemma scanstring_suffix s acc v t :
  scanstring s acc = Ok (v, t) → t `suffix_of` s.
Proof.
  remember (length s) as n eqn:Hn. assert (length s ≤ n)%nat as Hle by lia.
  clear Hn. revert s acc Hle.
  induction n as [|n IH]; intros s acc Hle H.
  - destruct s; [done|simpl in Hle; lia].
  - destruct s as [|c r]; [done|]. simpl in Hle. cbn [scanstring] in H.
    repeat case_match; simplify_eq; cbn [length] in *;
      try (apply IH in H; [|cbn [length] in *; lia]); suffixes.
Qed.

Lemma match_number_suffix s text t :
  match_number s = Some (text, t) → t `suffix_of` s.
Proof.
  unfold match_number. intros H.
  repeat (case_match; simplify_eq; cbn [mbind option_bind] in * ); suffixes.
Qed.

Lemma literal_suffix word s t : literal word s = Some t → t `suffix_of` s.
Proof.
  unfold literal. destruct (startswith (u word) s); [|done].
  intros [= <-]. apply suffix_drop.
Qed.

Ltac decoded :=
  repeat match goal with
         | H : scanstring _ _ = Ok _ |- _ => apply scanstring_suffix in H
         | H : match_number _ = Some _ |- _ => apply match_number_suffix in H
         | H : literal _ _ = Some _ |- _ => apply literal_suffix in H
         end.

(** What the decoder leaves is the end of what it was given; and what it
    takes for an array ends with the closing bracket. *)
Lemma scan_suffix depth :
  (∀ s v t, scan_once depth s = Ok (v, t) →
     t `suffix_of` s ∧ (head s = Some 91 → (93 :: t) `suffix_of` s))
  ∧ (∀ s acc v t, array_items depth s acc = Ok (v, t) → (93 :: t) `suffix_of` s)
  ∧ (∀ s acc v t, object_members depth s acc = Ok (v, t) → t `suffix_of` s).
Proof.
  induction depth as [|depth (IH1 & IH2 & IH3)]; [done|].
  split; [|split].
  - intros s v t H. destruct s as [|c r]; [done|].
    cbn [scan_once] in H. unfold mbind, result_bind, bind in H.
    split.
    + repeat case_match; simplify_eq;
        repeat match goal with
               | H : array_items _ _ _ = Ok _ |- _ =>
                 apply IH2 in H; apply suffix_cons_l in H
               | H : object_members _ _ _ = Ok _ |- _ => apply IH3 in H
               end; decoded; suffixes.
    + intros [= ->]. cbn [N.eqb Pos.eqb] in H.
      repeat case_match; simplify_eq;
        repeat match goal with
               | H : array_items _ _ _ = Ok _ |- _ => apply IH2 in H
               end;
        repeat match goal with
               | H : (_ =? 93) = true |- _ => apply N.eqb_eq in H; subst
               end; suffixes.
  - intros s acc v t H. cbn [array_items] in H.
    unfold mbind, result_bind, bind in H.
    repeat case_match; simplify_eq;
      repeat match goal with
             | H : scan_once _ _ = Ok _ |- _ => apply IH1 in H as [H _]
             | H : array_items _ _ _ = Ok _ |- _ => apply IH2 in H
             | H : (_ =? 93) = true |- _ => apply N.eqb_eq in H; subst
             end; suffixes.
  - intros s acc v t H. cbn [object_members] in H.
    unfold mbind, result_bind, bind in H.
    repeat case_match; simplify_eq;
      repeat match goal with
             | H : scan_once _ _ = Ok _ |- _ => apply IH1 in H as [H _]
             | H : object_members _ _ _ = Ok _ |- _ => apply IH3 in H
             end; decoded; suffixes.
Qed.

(** A text that starts with an opening bracket and ends with a character
    that is not white space decodes only if that character is a closing
    bracket. *)
Lemma loads_closed s v c :
  loads s = Ok v → head s = Some 91 → last s = Some c → is_ws c = false →
  c = 93.
Proof.
  unfold loads, mbind, result_bind, bind. intros H Hhead Hlast Hc.
  repeat case_match; simplify_eq.
  destruct s as [|c0 r]; [done|]. injection Hhead as ->.
  cbn [skip_ws is_ws N.eqb Pos.eqb orb] in *.
  match goal with H : scan_once _ _ = Ok _ |- _ =>
    apply scan_suffix in H as [_ H]; specialize (H eq_refl);
    destruct H as [x Hx]
  end.
  match goal with H : skip_ws ?t = [] |- _ =>
    apply skip_ws_blank in H; destruct t as [|c' t'] using rev_ind
  end.
  - rewrite Hx, last_snoc in Hlast. by injection Hlast.
  - rewrite Hx in Hlast.
    change (x ++ 93 :: t' ++ [c']) with (x ++ (93 :: t') ++ [c']) in Hlast.
    rewrite app_assoc, last_snoc in Hlast. injection Hlast as ->.
    match goal with H : Forall _ (_ ++ [_]) |- _ =>
      apply Forall_app in H as [_ H]; inversion_clear H; congruence
    end.
Qed.

End decoder.

(** ** The configuration store *)

Section dict.
Context {V : Type}.
Implicit Types (d : dict V) (k : str) (v : V).

Lemma dict_get_set_eq k v d : dict_get k (dict_set k v d) = Some v.
Proof.
  induction d as [|[k' v'] d IH]; simpl.
  - by rewrite decide_True.
  - destruct (decide (k = k')) as [->|Hne]; simpl;
      [by rewrite decide_True | by rewrite decide_False].
Qed.

Lemma dict_get_set_ne k k' v d :
  k ≠ k' → dict_get k' (dict_set k v d) = dict_get k' d.
Proof.
  intros Hne. induction d as [|[k'' v''] d IH]; simpl.
  - by rewrite decide_False.
  - destruct (decide (k = k'')) as [->|]; simpl.
    + by rewrite !decide_False.
    + by rewrite IH.
Qed.


Lemma dict_get_elem k v d : dict_get k d = Some v → (k, v) ∈ d.
Proof.
  induction d as [|[k' v'] d IH]; simpl; [done|].
  destruct (decide (k = k')) as [->|]; [intros [= ->]; by left|].
  intros H. right. by apply IH.
Qed.


Lemma dict_get_fold_set (f : str → V) (names : list str) k d :
  k ∈ names →
  dict_get k (fold_left (fun d k => dict_set k (f k) d) names d) = Some (f k).
Proof.
  revert d. induction names as [|n names IH]; intros d Hk; [by inversion Hk|].
  simpl. destruct (decide (k ∈ names)) as [Hin|Hnotin]; [by apply IH|].
  apply elem_of_cons in Hk as [->|]; [|done].
  clear IH. revert d. induction names as [|m names IH]; intros d; simpl.
  - apply dict_get_set_eq.
  - apply not_elem_of_cons in Hnotin as [Hne Hnotin].
    specialize (IH Hnotin). rewrite <- (IH d).
    (* the entry for [n] is made before the one for [m] *)
    clear IH. generalize (dict_set n (f n) d) as d1. intros d1.
    assert (∀ d2 d3, dict_get n d2 = dict_get n d3 →
              dict_get n (fold_left (fun d k => dict_set k (f k) d) names d2)
              = dict_get n (fold_left (fun d k => dict_set k (f k) d) names d3))
      as Hcong.
    { clear -Hnotin. induction names as [|m' names IH]; intros d2 d3 E; [done|].
      apply not_elem_of_cons in Hnotin as [Hne Hnotin]. simpl.
      apply IH; [done|]. by rewrite !dict_get_set_ne. }
    apply Hcong. by rewrite dict_get_set_ne.
Qed.

End dict.

Section store.
Implicit Types (env_vars existing : dict str) (env : gmap str str) (k v : str).

Lemma update_env_vars_cons k v env_vars existing env :
  fold_left update_env_var ((k, v) :: env_vars) (existing, env)
  = fold_left update_env_var env_vars
      (if bool_decide (v = []) then (existing, env)
       else (dict_set k v existing, <[k:=v]> env)).
Proof. done. Qed.


(** A key without a non-empty submitted value keeps what it had, in the
    entries and in the environment. *)
Lemma update_env_vars_frame env_vars existing env k :
  (∀ v, (k, v) ∈ env_vars → v = []) →
  dict_get k (fold_left update_env_var env_vars (existing, env)).1
  = dict_get k existing
  ∧ (fold_left update_env_var env_vars (existing, env)).2 !! k = env !! k.
Proof.
  revert existing env. induction env_vars as [|[k' v'] env_vars IH];
    intros existing env Hk; [done|].
  rewrite update_env_vars_cons.
  assert (∀ v, (k, v) ∈ env_vars → v = []) as Hk' by (intros v ?; apply Hk; by right).
  case_bool_decide as Hv; [by apply IH|].
  destruct (IH (dict_set k' v' existing) (<[k':=v']> env) Hk') as [-> ->].
  assert (k' ≠ k) as Hne.
  { intros ->. apply Hv, Hk. by left. }
  by rewrite dict_get_set_ne, lookup_insert_ne.
Qed.

(** A key submitted with a non-empty value gets it, in the entries and in
    the environment. *)
Lemma update_env_vars_set env_vars existing env k v :
  NoDup env_vars.*1 → (k, v) ∈ env_vars → v ≠ [] →
  dict_get k (fold_left update_env_var env_vars (existing, env)).1 = Some v
  ∧ (fold_left update_env_var env_vars (existing, env)).2 !! k = Some v.
Proof.
  revert existing env. induction env_vars as [|[k' v'] env_vars IH];
    intros existing env Hnodup Hin Hv; [by inversion Hin|].
  rewrite fmap_cons in Hnodup. apply NoDup_cons in Hnodup as [Hfresh Hnodup].
  apply elem_of_cons in Hin as [[= <- <-]|Hin].
  - rewrite update_env_vars_cons, bool_decide_false by done.
    destruct (update_env_vars_frame env_vars (dict_set k v existing)
                (<[k:=v]> env) k) as [-> ->].
    + intros v0 Hin. exfalso. apply Hfresh.
      apply list_elem_of_fmap. by exists (k, v0).
    + by rewrite dict_get_set_eq, lookup_insert_eq.
  - rewrite update_env_vars_cons. case_bool_decide; by apply IH.
Qed.

Lemma load_dotenv_keeps found env k v :
  env !! k = Some v → load_dotenv found env !! k = Some v.
Proof.
  unfold load_dotenv. revert env.
  induction found as [|[k' v'] found IH]; intros env H; simpl; [done|].
  apply IH. destruct (env !! k') eqn:E; [done|]. destruct v'; [|done].
  rewrite lookup_insert_ne; [done|]. intros ->. congruence.
Qed.




Lemma lines_from_line cur body t :
  10 ∉ body →
  lines_from cur (body ++ 10 :: t)
  = (reverse cur ++ body ++ [10]) :: lines_from [] t.
Proof.
  revert cur. induction body as [|c body IH]; intros cur Hnot; simpl.
  - by rewrite reverse_cons.
  - apply not_elem_of_cons in Hnot as [Hc Hnot].
    destruct (N.eqb_spec c 10) as [->|_]; [done|].
    rewrite IH by done. by rewrite reverse_cons, <- app_assoc.
Qed.







End store.

(** ** The log interpreter *)

Section extract_answer.

Lemma extract_answer_skip before logs :
  Forall (fun l => ¬ occurs (u "Answer:") l) before →
  extract_answer (before ++ logs) = extract_answer logs.
Proof.
  induction 1 as [|l before Hl _ IH]; simpl; [done|].
  apply contains_false in Hl. by rewrite Hl.
Qed.

(** C3. When a line of the log contains the token [Answer:], the answer is
    what follows the first occurrence of the token in the first such line,
    without the white space around it; the lines after it play no part. *)
Theorem extract_answer_first_match
    (before : list str) (line : str) (after : list str) (head tail : str) :
  Forall (fun l => ¬ occurs (u "Answer:") l) before →
  first_occurrence (u "Answer:") line head tail →
  extract_answer (before ++ line :: after) = strip tail
  ∧ trimmed tail (extract_answer (before ++ line :: after)).
Proof.
  intros Hbefore Hfirst.
  assert (extract_answer (before ++ line :: after) = strip tail) as ->.
  { rewrite extract_answer_skip by done. simpl.
    assert (contains (u "Answer:") line = true) as ->.
    { apply contains_spec. destruct Hfirst as [H _]. by exists head, tail. }
    by rewrite (split_once_first _ _ _ _ Hfirst). }
  split; [done | apply strip_trimmed].
Qed.

Lemma extract_answer_first_match_witness :
  extract_answer [u "step 1"; u "Final Answer:  42 " ++ [10]; u "Answer: 7"]
  = u "42".
Proof.
  refine (eq_trans
            (proj1 (extract_answer_first_match
                      [u "step 1"] (u "Final Answer:  42 " ++ [10])
                      [u "Answer: 7"] (u "Final ") (u "  42 " ++ [10]) _ _))
            _); [| |reflexivity].
  - repeat constructor. intros H. apply contains_spec in H. vm_compute in H.
    discriminate.
  - exact (find_is_first (u "Answer:") (u "Final Answer:  42 " ++ [10]) 6
                         eq_refl).
Defined.

(** C9. When no line of the log contains the token [Answer:], there is no
    answer: the result is the empty string. *)
Theorem extract_answer_absent (logs : list str) :
  Forall (fun l => ¬ occurs (u "Answer:") l) logs →
  extract_answer logs = [].
Proof.
  intros H. rewrite <- (app_nil_r logs). by rewrite extract_answer_skip.
Qed.

Lemma extract_answer_absent_witness :
  extract_answer [u "step 1"; u "no answer here"] = [].
Proof.
  apply extract_answer_absent.
  repeat constructor; intros H'; apply contains_spec in H';
    vm_compute in H'; discriminate.
Defined.

End extract_answer.


Section extract_chat_history.

(** The outer [try] absorbs whatever the scan raises. *)
Lemma extract_chat_history_total logs : ∃ r, extract_chat_history logs = Ok r.
Proof.
  unfold extract_chat_history. destruct (scan_chat_history logs); simpl; eauto.
Qed.

Lemma find_bracket before tail :
  91 ∉ before → find (u "[") (before ++ 91 :: tail) = Some (length before).
Proof.
  induction before as [|c before IH]; intros Hnot; [done|].
  apply not_elem_of_cons in Hnot as [Hc Hnot].
  change (find (u "[") ((c :: before) ++ 91 :: tail))
    with (if (91 =? c) && true then Some 0%nat
          else S <$> find (u "[") (before ++ 91 :: tail)).
  destruct (N.eqb_spec 91 c) as [E|_]; [congruence|]. simpl. by rewrite IH.
Qed.


Lemma format_chat_entries ms acc :
  format_chat (List.map message ms) acc = Ok (acc ++ List.map message_entry ms).
Proof.
  revert acc. induction ms as [|m ms IH]; intros acc; simpl.
  - by rewrite app_nil_r.
  - rewrite IH, <- app_assoc. done.
Qed.

Lemma strip_dumps ms : strip (dumps ms ++ [10]) = dumps ms.
Proof.
  unfold strip, dumps. change (u "[") with [91]. change (u "]") with [93].
  rewrite <- !app_assoc. cbn [app].
  change (91 :: dumps_messages ms ++ [93; 10])
    with ((91 :: dumps_messages ms) ++ 93 :: [10]).
  rewrite rstrip_app by done. done.
Qed.

(** A line that ends with the [json.dumps] text of a list of messages, after
    a text that has the marker and no opening bracket, gives the transcript
    of the messages. *)
Lemma extract_chat_history_dumps (prefix : str) (ms : list (str * str)) :
  occurs (u "chat_history") prefix →
  91 ∉ prefix →
  Forall (fun m => plain m.1 ∧ plain m.2) ms →
  extract_chat_history [prefix ++ dumps ms ++ [10]]
  = Ok (Some (List.map message_entry ms)).
Proof.
  intros (a & b & Hprefix) Hnot Hplain.
  unfold extract_chat_history. cbn [scan_chat_history].
  assert (contains (u "chat_history") (prefix ++ dumps ms ++ [10]) = true) as ->.
  { apply contains_spec. exists a, (b ++ dumps ms ++ [10]).
    unfold occurs_at in *. rewrite Hprefix, <- !app_assoc. done. }
  assert (dumps ms ++ [10] = 91 :: dumps_messages ms ++ [93; 10]) as Hd.
  { unfold dumps. by rewrite <- !app_assoc. }
  rewrite Hd, find_bracket by done. rewrite drop_app_length, <- Hd, strip_dumps.
  unfold assemble.
  assert (last (dumps ms) = Some 93) as ->.
  { unfold dumps. change (u "]") with [93]. by rewrite app_assoc, last_snoc. }
  cbn [N.eqb Pos.eqb negb andb]. rewrite bind_Ok, loads_dumps by done.
  rewrite bind_Ok. cbn [py_iter]. rewrite bind_Ok, format_chat_entries. done.
Qed.




Lemma scan_chat_history_unparseable logs :
  (∀ before log rest start_idx json_str,
      logs = before ++ log :: rest →
      occurs (u "chat_history") log →
      find (u "[") log = Some start_idx →
      assemble (strip (drop start_idx log)) rest = Ok json_str →
      ∃ e, loads json_str = Raise e) →
  scan_chat_history logs = Ok None ∨ ∃ e, scan_chat_history logs = Raise e.
Proof.
  induction logs as [|log rest IH]; intros H; [by left|].
  assert (scan_chat_history rest = Ok None
          ∨ ∃ e, scan_chat_history rest = Raise e) as Hrest.
  { apply IH. intros before log' rest' start_idx json_str -> ? ? ?.
    by apply (H (log :: before) log' rest' start_idx json_str). }
  cbn [scan_chat_history].
  destruct (contains (u "chat_history") log) eqn:Hmarker; [|done].
  destruct (find (u "[") log) as [start_idx|] eqn:Hfind; [|done].
  destruct (assemble (strip (drop start_idx log)) rest) as [json_str|e] eqn:Ha;
    [|right; by exists e].
  apply contains_spec in Hmarker.
  destruct (H [] log rest start_idx json_str eq_refl Hmarker Hfind Ha) as [e He].
  rewrite bind_Ok, He, bind_Raise.
  destruct e; cbn [catch is_JSONDecodeError]; try (right; by eexists). done.
Qed.

(** C5, as amended. [extract_chat_history] never raises; and when, at every
    marker line, the text assembled from the first opening bracket of the line
    on fails to decode as JSON, the result is absent. *)
Theorem extract_chat_history_never_raises (logs : list str) :
  (∃ r, extract_chat_history logs = Ok r)
  ∧ ((∀ before log rest start_idx json_str,
        logs = before ++ log :: rest →
        occurs (u "chat_history") log →
        find (u "[") log = Some start_idx →
        assemble (strip (drop start_idx log)) rest = Ok json_str →
        ∃ e, loads json_str = Raise e) →
     extract_chat_history logs = Ok None).
Proof.
  split; [apply extract_chat_history_total|]. intros H.
  unfold extract_chat_history.
  by destruct (scan_chat_history_unparseable logs H) as [-> | [e ->]].
Qed.

Lemma extract_chat_history_never_raises_witness :
  extract_chat_history [q "chat_history: [{'role': 'user', 'content': " ++ [10];
                        u "done" ++ [10]] = Ok None.
Proof.
  apply (proj2 (extract_chat_history_never_raises
                  [q "chat_history: [{'role': 'user', 'content': " ++ [10];
                   u "done" ++ [10]])).
  intros before log rest start_idx json_str Hlogs Hmarker Hfind Hassemble.
  exists JSONDecodeError.
  destruct before as [|l0 [|l1 before]].
  - injection Hlogs as <- <-.
    vm_compute in Hfind. injection Hfind as <-.
    vm_compute in Hassemble. injection Hassemble as <-.
    vm_compute. reflexivity.
  - injection Hlogs as _ <- _.
    apply contains_spec in Hmarker. vm_compute in Hmarker. discriminate.
  - exfalso. injection Hlogs as _ _ Hnil. by destruct before.
Defined.

(** The logs of the counterexample to C5: a marker line whose text does not
    decode, followed by one whose text does; and a marker line whose array
    decodes but holds no object with [role] and [content]. *)
Lemma extract_chat_history_absent_counterexample :
  (loads (q "[truncated]") = Raise JSONDecodeError
   ∧ extract_chat_history
       [q "chat_history: [truncated]" ++ [10];
        q "chat_history: [{'role': 'system', 'content': 'hi'}]" ++ [10]]
     = Ok (Some [(u "助手", JString (u "hi"))]))
  ∧ extract_chat_history [q "chat_history: [{'speaker': 'user'}]" ++ [10]]
    = Ok (Some []).
Proof. repeat split; vm_compute; reflexivity. Qed.




Lemma format_chat_raises items acc e :
  format_chat items acc = Raise e → is_JSONDecodeError e = false.
Proof.
  revert acc. induction items as [|msg items IH]; intros acc; [done|].
  cbn [format_chat]. unfold mbind, result_bind, bind, py_in, getitem.
  intros H. repeat case_match; simplify_eq; try done; by eapply IH.
Qed.

(** Once the text is decoded, the inner [except] has nothing to catch. *)
Lemma catch_decoded chat_data handler :
  catch (items ← py_iter chat_data;
         formatted_chat ← format_chat items [];
         Ok (Some formatted_chat))
        is_JSONDecodeError handler
  = (items ← py_iter chat_data;
     formatted_chat ← format_chat items [];
     Ok (Some formatted_chat)).
Proof.
  destruct chat_data; cbn [py_iter]; rewrite ?bind_Ok, ?bind_Raise; try done;
    match goal with |- context [format_chat ?items []] =>
      destruct (format_chat items []) as [t|e] eqn:E;
        [done | apply format_chat_raises in E; cbn; by rewrite E]
    end.
Qed.

Lemma strip_bracket tail : ∃ t, strip (91 :: tail) = 91 :: t.
Proof.
  unfold strip. change (91 :: tail) with ([] ++ 91 :: tail).
  rewrite rstrip_app by done. by eexists.
Qed.



Lemma is_ws_isspace c : is_ws c = true → isspace c = true.
Proof.
  unfold is_ws. intros H.
  repeat (apply orb_true_iff in H as [H|H]); apply N.eqb_eq in H; by subst.
Qed.




(** An array that goes on on the very next line is put together. *)
Example extract_chat_history_next_line :
  extract_chat_history
    [q "chat_history: [{'role': 'user', 'content': 'hi'}," ++ [10];
     q " {'role': 'assistant', 'content': 'yo'}] and more" ++ [10]]
  = Ok (Some [(u "用户", JString (u "hi")); (u "助手", JString (u "yo"))]).
Proof. vm_compute. reflexivity. Qed.

(** A closing bracket on the tenth line after the marker line is not found. *)
Example extract_chat_history_tenth_line :
  extract_chat_history
    ((q "chat_history: [{'role': 'user', 'content': 'hi'}" ++ [10])
       :: replicate 9 [10] ++ [u "]" ++ [10]])
  = Ok None
  ∧ extract_chat_history
      ((q "chat_history: [{'role': 'user', 'content': 'hi'}" ++ [10])
         :: replicate 8 [10] ++ [u "]" ++ [10]])
    = Ok (Some [(u "用户", JString (u "hi"))]).
Proof. split; vm_compute; reflexivity. Qed.




End extract_chat_history.

Section status_message.

Lemma u_ascii (s : string) :
  Forall (fun a => N_of_ascii a < 128) (list_ascii_of_string s) →
  List.map ascii_of_N (u s) = list_ascii_of_string s.
Proof.
  unfold u. induction (list_ascii_of_string s) as [|a l IH]; [done|].
  intros H. inversion_clear H as [|? ? Ha Hl]. cbn [List.map utf8_decode].
  apply N.ltb_lt in Ha. rewrite Ha. cbn [List.map].
  by rewrite ascii_N_embedding, IH.
Qed.

Lemma string_of_uint_ascii (d : Decimal.uint) :
  Forall (fun a => N_of_ascii a < 128)
         (list_ascii_of_string (NilEmpty.string_of_uint d)).
Proof. induction d; simpl; constructor; done. Qed.

Lemma string_of_int_ascii (d : Decimal.int) :
  Forall (fun a => N_of_ascii a < 128)
         (list_ascii_of_string (NilEmpty.string_of_int d)).
Proof.
  destruct d as [d|d]; simpl; [|constructor; [done|]];
    apply string_of_uint_ascii.
Qed.

(** [str(n)] is the decimal numeral of [n]. *)
Lemma str_of_int_decimal (n : Z) : decimal_value (str_of_int n) = Some n.
Proof.
  unfold decimal_value, str_of_int.
  rewrite u_ascii by apply string_of_int_ascii.
  rewrite string_of_list_ascii_of_string.
  rewrite NilEmpty.isi. simpl. by rewrite DecimalZ.of_to.
Qed.

(** C8. Once the child has exited, the status is the success message exactly
    when the exit code is 0; for every other exit code it is the failure
    message, which carries the decimal numeral of that code. *)
Theorem status_message_exit_code (process : Popen) (code : Z) :
  poll process = Some code →
  (status_message process = u "✅ 执行成功" ↔ code = 0%Z)
  ∧ (code ≠ 0%Z →
     status_message process
     = u "❌ 执行失败 (返回码: " ++ str_of_int code ++ u ")"
     ∧ decimal_value (str_of_int code) = Some code).
Proof.
  intros Hpoll. unfold status_message. rewrite Hpoll.
  destruct (Z.eqb_spec code 0) as [->|Hne].
  - split; [done|]. by intros [].
  - split.
    + split; [|done]. intros H. apply (f_equal (hd 0)) in H.
      vm_compute in H. discriminate.
    + intros _. split; [done | apply str_of_int_decimal].
Qed.

Lemma status_message_exit_code_witness :
  status_message (Process (Some 1%Z)) = u "❌ 执行失败 (返回码: 1)"
  ∧ status_message (Process (Some 0%Z)) = u "✅ 执行成功".
Proof.
  split.
  - exact (proj1 (proj2 (status_message_exit_code (Process (Some 1%Z)) 1
                           eq_refl) ltac:(lia))).
  - exact (proj2 (proj1 (status_message_exit_code (Process (Some 0%Z)) 0
                           eq_refl)) eq_refl).
Defined.

End status_message.

(** ** The session driver *)

Section run_script.

(** The loop only adds events. *)
Lemma drive_events start file passes d :
  ∃ new, events (drive start file passes d) = new ++ events d.
Proof.
  revert d. induction passes as [|p passes IH]; intros d; simpl.
  - by exists [].
  - destruct (timeout <? time_now p - start)%Z.
    + destruct (poll (at_lock p)); simpl; [by exists [] | by eexists [_; _]].
    + edestruct IH as [new H]. rewrite H. simpl.
      eexists (new ++ [_]). by rewrite <- app_assoc.
Qed.

(** A run request with a question for one of the scripts on offer starts by
    spawning the child, which finds the question in its environment. *)
Lemma run_script_spawns script_dropdown script_name question env passes fin :
  dict_get script_dropdown SCRIPTS = Some script_name →
  strip question ≠ [] →
  ∃ cmd child_env rest,
    trace (run_script script_dropdown question env passes fin)
    = Spawn cmd child_env :: rest
    ∧ child_env !! u "OWL_QUESTION" = Some question.
Proof.
  intros Hs Hq. unfold run_script. rewrite Hs.
  rewrite bool_decide_false by done. cbn [trace].
  edestruct drive_events as [new H]. rewrite H. cbn [events].
  rewrite reverse_app, reverse_singleton. simpl.
  eexists _, _, _. split; [done|]. apply lookup_insert_eq.
Qed.

(** A run whose child exits with code 0 after one pass of the loop. *)
Example run_script_example :
  run_script (u "Qwen") (u "What is 6 x 7?")
    (RequestEnv (u "/usr/bin/python3") (u "20250101_120000") ∅ 100)
    [Pass 101 (Process None) [u "Answer: 42" ++ [10]] (Process None)]
    (Ending [q "chat_history: [{'role': 'user', 'content': 'What is 6 x 7?'}]"
               ++ [10]]
            (Process (Some 0%Z)))
  = Run [Spawn [u "/usr/bin/python3"; u "owl/script_adapter.py";
                u "owl/run_qwen.py"]
               {[u "OWL_QUESTION" := u "What is 6 x 7?"]};
         Yield (Snapshot (u "⏳ 正在运行...") (u "42") (u "Answer: 42" ++ [10])
                         (u "logs/run_qwen_20250101_120000.log") None)]
        (Ok (Snapshot (u "✅ 执行成功") (u "42")
               (u "Answer: 42" ++ [10]
                ++ q "chat_history: [{'role': 'user', 'content': 'What is 6 x 7?'}]"
                ++ [10])
               (u "logs/run_qwen_20250101_120000.log")
               (Some [(u "用户", JString (u "What is 6 x 7?"))]))).
Proof. vm_compute. reflexivity. Qed.

(** C6. A run request whose question is empty or only white space does
    nothing to its surroundings, so no child process is spawned, and for any
    of the scripts on offer the generator returns the validation message at
    once, without yielding a snapshot. *)
Theorem run_script_blank_question
    (script_dropdown question : str) (env : request_env)
    (passes : list pass) (fin : ending) :
  blank question →
  trace (run_script script_dropdown question env passes fin) = []
  ∧ ∀ script_name, dict_get script_dropdown SCRIPTS = Some script_name →
      returned (run_script script_dropdown question env passes fin)
      = Ok (Snapshot (u "请输入问题！") [] [] [] None).
Proof.
  intros Hq. apply strip_blank in Hq. unfold run_script.
  destruct (dict_get script_dropdown SCRIPTS); rewrite ?Hq; simpl; [|done].
  split; [done|]. by intros ? _.
Qed.

Lemma run_script_blank_question_witness :
  run_script (u "Qwen") (u "  " ++ [10; 9]) (RequestEnv (u "python") (u "t") ∅ 0)
             [] (Ending [] (Process (Some 0%Z)))
  = Run [] (Ok (Snapshot (u "请输入问题！") [] [] [] None)).
Proof.
  pose proof (run_script_blank_question (u "Qwen") (u "  " ++ [10; 9])
                (RequestEnv (u "python") (u "t") ∅ 0) []
                (Ending [] (Process (Some 0%Z)))
                ltac:(repeat constructor)) as [Ht Hr].
  specialize (Hr (u "run_qwen.py") eq_refl).
  destruct (run_script _ _ _ _ _) as [t r]. simpl in *. by subst.
Defined.

(** The passes within the budget collect what arrived and yield. *)
Lemma drive_within_budget start file before rest lines evs :
  Forall (fun b => (time_now b - start ≤ timeout)%Z) before →
  ∃ yields,
    Forall is_yield yields
    ∧ drive start file (before ++ rest) (Driver lines [] evs)
      = drive start file rest
          (Driver (lines ++ concat (List.map arrived before)) []
                  (yields ++ evs)).
Proof.
  intros H. revert lines evs.
  induction H as [|b before Hb _ IH]; intros lines evs.
  - exists []. split; [constructor|]. simpl. by rewrite app_nil_r.
  - cbn [app drive log_queue logs events].
    apply Z.ltb_ge in Hb. rewrite Hb. cbn [app].
    edestruct IH as (yields & Hy & ->).
    eexists (yields ++ [_]). split.
    + apply Forall_app. split; [done|]. constructor; [by eexists|constructor].
    + cbn [List.map concat]. by rewrite <- !app_assoc.
Qed.

(** C2, as amended. When the child is still alive once the budget of 1800
    time units is exceeded, the driver terminates it and puts the line that
    records the timeout on the queue; the final log holds every line captured
    before the termination, then that line, then what arrived later; and the
    final status is the one [status_message] gives for the child as it is
    then (running, succeeded or failed), there being no status for a timeout. *)
Theorem run_script_timeout
    (script_dropdown script_name question : str) (env : request_env)
    (before : list pass) (p : pass) (after : list pass) (fin : ending) :
  dict_get script_dropdown SCRIPTS = Some script_name →
  strip question ≠ [] →
  Forall (fun b => (time_now b - start_time env ≤ timeout)%Z) before →
  (timeout < time_now p - start_time env)%Z →
  poll (at_lock p) = None →
  let r := run_script script_dropdown question env (before ++ p :: after) fin in
  let captured := concat (List.map arrived before) ++ arrived p in
  (∃ cmd child_env yields,
      trace r = Spawn cmd child_env :: yields ++ [Terminate; Put TIMEOUT_LINE]
      ∧ Forall is_yield yields)
  ∧ ∃ shot,
      returned r = Ok shot
      ∧ log_text shot = join (captured ++ [TIMEOUT_LINE] ++ late fin)
      ∧ status shot = status_message (at_return fin).
Proof.
  intros Hs Hq Hbefore Hp Hlock r captured. subst r captured.
  unfold run_script. rewrite Hs. rewrite bool_decide_false by done.
  edestruct drive_within_budget as (yields & Hy & ->); [exact Hbefore|].
  cbn [drive log_queue logs events app].
  apply Z.ltb_lt in Hp. rewrite Hp, Hlock. cbn [trace returned logs log_queue events].
  split.
  - eexists _, _, (reverse yields). split.
    + rewrite !reverse_cons, reverse_app, reverse_singleton.
      rewrite <- !app_assoc. done.
    + by apply Forall_reverse.
  - edestruct extract_chat_history_total as [h ->]. rewrite bind_Ok.
    eexists. split; [done|]. cbn [log_text status]. split; [|done].
    f_equal. cbn [app]. by rewrite <- !app_assoc.
Qed.

Lemma run_script_timeout_witness :
  let r := run_script (u "Qwen") (u "What is 6 x 7?")
             (RequestEnv (u "python") (u "20250101_120000") ∅ 100)
             [Pass 101 (Process None) [u "thinking" ++ [10]] (Process None);
              Pass 1901 (Process None) [u "still thinking" ++ [10]] (Process None)]
             (Ending [] (Process (Some (-15)%Z))) in
  (∃ cmd child_env yields,
      trace r = Spawn cmd child_env :: yields ++ [Terminate; Put TIMEOUT_LINE]
      ∧ Forall is_yield yields)
  ∧ ∃ shot,
      returned r = Ok shot
      ∧ log_text shot
        = join (([u "thinking" ++ [10]] ++ [u "still thinking" ++ [10]])
                ++ [TIMEOUT_LINE] ++ [])
      ∧ status shot = status_message (Process (Some (-15)%Z)).
Proof.
  apply (run_script_timeout (u "Qwen") (u "run_qwen.py") (u "What is 6 x 7?")
           (RequestEnv (u "python") (u "20250101_120000") ∅ 100)
           [Pass 101 (Process None) [u "thinking" ++ [10]] (Process None)]
           (Pass 1901 (Process None) [u "still thinking" ++ [10]] (Process None))
           []
           (Ending [] (Process (Some (-15)%Z)))).
  - vm_compute. reflexivity.
  - vm_compute. discriminate.
  - repeat constructor. simpl. unfold timeout. lia.
  - simpl. unfold timeout. lia.
  - reflexivity.
Defined.

(** The run of the counterexample to C2: the child is alive when the budget
    is exceeded and is terminated, and the final snapshot reports it as
    running, or as failed with the exit code of the signal, as the child is
    found when the snapshot is made. Neither status tells of a timeout. *)
Lemma run_script_timeout_counterexample :
  let run_with fin :=
    run_script (u "Qwen") (u "What is 6 x 7?")
      (RequestEnv (u "python") (u "20250101_120000") ∅ 100)
      [Pass 101 (Process None) [u "thinking" ++ [10]] (Process None);
       Pass 1901 (Process None) [u "still thinking" ++ [10]] (Process None)]
      fin in
  (Terminate ∈ trace (run_with (Ending [] (Process None)))
   ∧ ∃ shot, returned (run_with (Ending [] (Process None))) = Ok shot
             ∧ status shot = u "⏳ 正在运行...")
  ∧ (Terminate ∈ trace (run_with (Ending [] (Process (Some (-15)%Z))))
     ∧ ∃ shot, returned (run_with (Ending [] (Process (Some (-15)%Z)))) = Ok shot
               ∧ status shot = u "❌ 执行失败 (返回码: -15)").
Proof.
  cbv zeta. split; (split; [rewrite list_elem_of_In; vm_compute; tauto|]);
    eexists; (split; [vm_compute; reflexivity|]); vm_compute; reflexivity.
Qed.

End run_script.

(** * Further properties of the code *)

(** ** White space and single characters *)

Section str_trimmed.
Implicit Types (s t : str) (c : char).

Lemma lstrip_fixed s :
  (∀ c, head s = Some c → isspace c = false) → lstrip s = s.
Proof. destruct s as [|c s]; [done|]. intros H. simpl. by rewrite (H c). Qed.

Lemma rstrip_fixed s :
  (∀ c, last s = Some c → isspace c = false) → rstrip s = s.
Proof.
  destruct s as [|c s _] using rev_ind; [done|]. intros H.
  rewrite rstrip_app; [done|]. apply H, last_snoc.
Qed.

Lemma strip_fixed s :
  (∀ c, head s = Some c → isspace c = false) →
  (∀ c, last s = Some c → isspace c = false) → strip s = s.
Proof.
  intros Hh Hl. unfold strip. rewrite rstrip_fixed by done.
  by apply lstrip_fixed.
Qed.

Lemma strip_ends s :
  strip s = s →
  (∀ c, head s = Some c → isspace c = false)
  ∧ (∀ c, last s = Some c → isspace c = false).
Proof.
  intros H. destruct (strip_trimmed s) as (_ & Hh & Hl).
  rewrite H in Hh, Hl. done.
Qed.

Lemma strip_strip s : strip (strip s) = strip s.
Proof. destruct (strip_trimmed s) as (_ & Hh & Hl). by apply strip_fixed. Qed.

Lemma elem_of_strip s c : c ∈ strip s → c ∈ s.
Proof.
  destruct (strip_trimmed s) as ((w1 & w2 & Hs & _) & _). intros H.
  rewrite Hs, !elem_of_app. auto.
Qed.

Lemma strip_empty s : strip s = [] → blank s.
Proof.
  destruct (strip_trimmed s) as ((w1 & w2 & Hs & H1 & H2) & _). intros H.
  rewrite H in Hs. rewrite Hs. unfold blank. by apply Forall_app.
Qed.

Lemma rstrip_newline s : rstrip (s ++ [10]) = rstrip s.
Proof. unfold rstrip. by rewrite reverse_app. Qed.

Lemma strip_newline s : strip (s ++ [10]) = strip s.
Proof. unfold strip. by rewrite rstrip_newline. Qed.

(** The head of a string that does not begin with white space stays. *)
Lemma strip_head c s : isspace c = false → ∃ t, strip (c :: s) = c :: t.
Proof.
  intros Hc. unfold strip. change (c :: s) with ([] ++ c :: s).
  rewrite rstrip_app by done. simpl. rewrite Hc. by eexists.
Qed.

Lemma find_char c before tail :
  c ∉ before → find [c] (before ++ c :: tail) = Some (length before).
Proof.
  induction before as [|a before IH]; intros Hnot.
  - apply find_startswith. simpl. by rewrite N.eqb_refl.
  - apply not_elem_of_cons in Hnot as [Hc Hnot]. cbn [app find startswith].
    destruct (N.eqb_spec c a) as [|_]; [done|]. cbn [andb].
    by rewrite IH.
Qed.

Lemma first_occurrence_char c s before after :
  first_occurrence [c] s before after → c ∉ before.
Proof.
  intros [Hocc Hmin] Hin. apply list_elem_of_split in Hin as (b1 & b2 & ->).
  specialize (Hmin b1 (b2 ++ [c] ++ after)). unfold occurs_at in *.
  rewrite Hocc, <- !app_assoc in Hmin. specialize (Hmin eq_refl).
  rewrite length_app in Hmin. simpl in Hmin. unfold char in *. lia.
Qed.

End str_trimmed.

(** ** Dictionaries with distinct keys *)

Section dict_keys.
Context {V : Type}.
Implicit Types (d : dict V) (k : str) (v : V).

Lemma dict_get_None k d : dict_get k d = None ↔ k ∉ d.*1.
Proof.
  induction d as [|[k' v'] d IH]; simpl.
  - split; [intros _; apply not_elem_of_nil | done].
  - rewrite not_elem_of_cons. destruct (decide (k = k')) as [->|Hne].
    + split; [done | by intros [? _]].
    + rewrite IH. tauto.
Qed.

Lemma dict_set_fresh k v d : k ∉ d.*1 → dict_set k v d = d ++ [(k, v)].
Proof.
  induction d as [|[k' v'] d IH]; simpl; [done|].
  rewrite not_elem_of_cons. intros [Hne Hnot].
  rewrite decide_False by done. by rewrite IH.
Qed.

Lemma dict_set_same k v d : dict_get k d = Some v → dict_set k v d = d.
Proof.
  induction d as [|[k' v'] d IH]; simpl; [done|].
  destruct (decide (k = k')) as [->|Hne]; [by intros [= ->]|].
  intros H. by rewrite IH.
Qed.

Lemma dict_set_keys k v d :
  (dict_set k v d).*1 = if decide (k ∈ d.*1) then d.*1 else d.*1 ++ [k].
Proof.
  induction d as [|[k' v'] d IH].
  - cbn [dict_set fmap list_fmap fst app].
    case_decide as H; [by apply not_elem_of_nil in H | done].
  - cbn [dict_set]. destruct (decide (k = k')) as [->|Hne].
    + rewrite !fmap_cons. cbn [fst]. rewrite decide_True; [done | by left].
    + rewrite !fmap_cons, IH. cbn [fst].
      destruct (decide (k ∈ d.*1)) as [Hin|Hnot].
      * rewrite decide_True; [done | by right].
      * rewrite decide_False; [done|]. rewrite not_elem_of_cons. done.
Qed.

Lemma dict_set_distinct k v d : NoDup d.*1 → NoDup (dict_set k v d).*1.
Proof.
  intros H. rewrite dict_set_keys. destruct (decide (k ∈ d.*1)); [done|].
  apply NoDup_app. repeat split; [done| |apply NoDup_singleton].
  intros x Hx ->%list_elem_of_singleton. done.
Qed.

Lemma dict_set_Forall (P : str * V → Prop) k v d :
  P (k, v) → Forall P d → Forall P (dict_set k v d).
Proof.
  intros HP. induction 1 as [|[k' v'] d Hkv Hd IH]; simpl.
  - by constructor.
  - destruct (decide (k = k')); by constructor.
Qed.

Lemma dict_sets_distinct (pairs : list (str * V)) d :
  NoDup (d ++ pairs).*1 →
  fold_left (fun d kv => dict_set kv.1 kv.2 d) pairs d = d ++ pairs.
Proof.
  revert d. induction pairs as [|[k v] pairs IH]; intros d Hnodup; simpl.
  - by rewrite app_nil_r.
  - rewrite dict_set_fresh.
    + rewrite IH; rewrite <- app_assoc; done.
    + rewrite fmap_app in Hnodup. apply NoDup_app in Hnodup as (_ & Hnot & _).
      intros Hin. apply (Hnot k Hin). by left.
Qed.

(** [dict(pairs)] for pairs with distinct keys holds the pairs in order. *)
Lemma dict_of_pairs_distinct (pairs : list (str * V)) :
  NoDup pairs.*1 → dict_of_pairs pairs = pairs.
Proof. intros H. unfold dict_of_pairs. by rewrite dict_sets_distinct. Qed.

End dict_keys.

(** ** The dotfile, written and read again *)

Section dotfile.
Implicit Types (d acc existing env_vars : dict str) (k v line body : str).
Implicit Types (env : gmap str str).

Lemma readlines_write_env_file d :
  Forall (fun kv => (10 ∉ kv.1) ∧ (10 ∉ kv.2)) d →
  readlines (write_env_file d)
  = List.map (fun kv => kv.1 ++ u "=" ++ kv.2 ++ [10]) d.
Proof.
  unfold readlines, write_env_file.
  induction 1 as [|[k v] d [Hk Hv] _ IH]; [done|].
  cbn [List.map concat fst snd] in *. change (u "=") with [61] in *.
  replace ((k ++ [61] ++ v ++ [10]) ++
           concat (List.map (fun kv => kv.1 ++ [61] ++ kv.2 ++ [10]) d))
    with ((k ++ [61] ++ v) ++
          10 :: concat (List.map (fun kv => kv.1 ++ [61] ++ kv.2 ++ [10]) d))
    by (by rewrite <- !app_assoc).
  rewrite lines_from_line.
  - rewrite IH. cbn [reverse rev_append app]. by rewrite <- !app_assoc.
  - rewrite !elem_of_app, list_elem_of_singleton. intros [?|[?|?]]; done.
Qed.

(** The line written for an entry is read as that entry. *)
Lemma read_env_line_written acc k v :
  line_entry (k, v) →
  read_env_line acc (k ++ u "=" ++ v ++ [10]) = dict_set k v acc.
Proof.
  intros (Hk & Hv & Hhash & Heq & _). cbn [fst snd] in *.
  pose proof (strip_ends k Hk) as [Hkh Hkl].
  pose proof (strip_ends v Hv) as [Hvh Hvl].
  change (u "=") with [61].
  assert (strip (k ++ [61] ++ v ++ [10]) = k ++ 61 :: v) as Hline.
  { unfold strip. change (k ++ [61] ++ v ++ [10]) with (k ++ 61 :: (v ++ [10])).
    rewrite rstrip_app by done. rewrite rstrip_newline, rstrip_fixed by done.
    destruct k as [|c k]; [done|]. simpl. by rewrite (Hkh c). }
  unfold read_env_line. cbv zeta. rewrite Hline.
  rewrite bool_decide_false by by destruct k.
  assert (startswith (u "#") (k ++ 61 :: v) = false) as ->.
  { destruct k as [|c k]; [done|]. change (u "#") with [35].
    cbn [app startswith]. destruct (N.eqb_spec 35 c) as [<-|]; [|done].
    exfalso. by apply Hhash. }
  change (u "=") with [61].
  unfold contains, split_once. rewrite find_char by done. cbn [negb andb].
  cbn [mbind option_bind]. rewrite take_app_length.
  change (k ++ 61 :: v) with (k ++ [61] ++ v).
  rewrite app_assoc, drop_app_length' by (by rewrite length_app).
  by rewrite Hk, Hv.
Qed.

Lemma read_env_lines_written acc d :
  Forall line_entry d →
  fold_left read_env_line (readlines (write_env_file d)) acc
  = fold_left (fun a kv => dict_set kv.1 kv.2 a) d acc.
Proof.
  intros H. rewrite readlines_write_env_file.
  - revert acc. induction H as [|[k v] d Hkv _ IH]; intros acc; [done|].
    cbn [List.map fold_left fst snd]. by rewrite read_env_line_written, IH.
  - eapply Forall_impl; [exact H|]. intros kv (_ & _ & _ & _ & ? & ? & _). done.
Qed.

(** X1. Writing entries and reading them again: entries with distinct keys,
    each of which a line of the dotfile holds as it stands, are read from the
    text written for them as the same entries, in the same order. *)
Theorem write_then_read d :
  NoDup d.*1 → Forall line_entry d →
  read_env_file (Some (write_env_file d)) = d.
Proof.
  intros Hnodup Hd. unfold read_env_file.
  rewrite read_env_lines_written by done. by apply dict_of_pairs_distinct.
Qed.

Lemma write_then_read_witness :
  read_env_file
    (Some (write_env_file [(u "HF_TOKEN", u "t 1"); (u "QWEN_API_KEY", [])]))
  = [(u "HF_TOKEN", u "t 1"); (u "QWEN_API_KEY", [])].
Proof.
  apply write_then_read.
  - apply (bool_decide_unpack _). vm_compute. exact I.
  - repeat constructor; try (vm_compute; reflexivity);
      try (vm_compute; discriminate);
      rewrite list_elem_of_In; vm_compute; intuition discriminate.
Defined.

(** The lines of a text: each is a body without newline, followed by the
    newline that ends it unless it is the last one. *)
Lemma lines_from_bodies cur text :
  10 ∉ cur →
  Forall (fun line => ∃ body, (line = body ++ [10] ∨ line = body)
                              ∧ (10 ∉ body)
                              ∧ ∀ c, c ∈ body → c ∈ cur ∨ c ∈ text)
         (lines_from cur text).
Proof.
  revert cur. induction text as [|c text IH]; intros cur Hcur.
  - simpl. destruct cur as [|a cur]; [constructor|].
    constructor; [|constructor]. exists (reverse (a :: cur)).
    split; [by right|]. split; [by rewrite elem_of_reverse|].
    intros c. rewrite elem_of_reverse. by left.
  - cbn [lines_from]. destruct (N.eqb_spec c 10) as [->|Hc].
    + constructor.
      * exists (reverse cur). split; [left; by rewrite reverse_cons|].
        split; [by rewrite elem_of_reverse|].
        intros c. rewrite elem_of_reverse. by left.
      * eapply Forall_impl; [apply IH, not_elem_of_nil|].
        intros line (body & Hline & Hbody & Hin). exists body.
        split; [done|]. split; [done|]. intros c Hc.
        destruct (Hin c Hc) as [H|H]; [by apply not_elem_of_nil in H|].
        right. by right.
    + eapply Forall_impl; [apply IH|].
      * rewrite not_elem_of_cons. split; [by intros <-|done].
      * intros line (body & Hline & Hbody & Hin). exists body.
        split; [done|]. split; [done|]. intros c' Hc'.
        destruct (Hin c' Hc') as [[->|H]%elem_of_cons|H];
          [right; by left | by left | right; by right].
Qed.

(** Whatever the loop over the lines of the dotfile reads is an entry that a
    line holds as it stands. *)
Lemma read_env_line_entries acc line body :
  line = body ++ [10] ∨ line = body → 10 ∉ body → 13 ∉ body →
  Forall line_entry acc → Forall line_entry (read_env_line acc line).
Proof.
  intros Hline H10 H13 Hacc.
  assert (strip line = strip body) as Hstrip
    by (destruct Hline as [->| ->]; [apply strip_newline | done]).
  unfold read_env_line. cbv zeta. rewrite Hstrip.
  destruct (negb (bool_decide (strip body = []))) eqn:Hne; [|done].
  destruct (startswith (u "#") (strip body)) eqn:Hhash; [done|].
  destruct (contains (u "=") (strip body)) eqn:Hin; [|done]. cbn [negb andb].
  unfold split_once. destruct (find (u "=") (strip body)) as [i|] eqn:F; [|done].
  cbn [mbind option_bind]. apply find_is_first in F.
  pose proof (first_occurrence_char _ _ _ _ F) as Heq.
  destruct F as [Hocc _]. unfold occurs_at in Hocc.
  set (key := take i (strip body)) in *.
  set (value := drop (i + length (u "=")) (strip body)) in *.
  assert (∀ c, c ∈ key → c ∈ body) as Hkey.
  { intros c Hc. apply elem_of_strip. rewrite Hocc, elem_of_app. by left. }
  assert (∀ c, c ∈ value → c ∈ body) as Hvalue.
  { intros c Hc. apply elem_of_strip. rewrite Hocc, !elem_of_app. auto. }
  apply dict_set_Forall; [|done].
  split; [apply strip_strip|]. split; [apply strip_strip|]. cbn [fst snd].
  split; [|repeat split; intros H%elem_of_strip; auto].
  destruct key as [|c key'] eqn:Ekey; [done|].
  destruct (strip_trimmed body) as (_ & Hhead & _).
  rewrite Hocc in Hhead, Hhash. specialize (Hhead c eq_refl).
  assert (head (strip (c :: key')) = Some c) as ->.
  { destruct (strip_head c key' Hhead) as [t Ht]. exact (f_equal head Ht). }
  intros [= ->]. done.
Qed.

Lemma read_env_file_entries file :
  text_mode file →
  Forall line_entry (read_env_file file) ∧ NoDup (read_env_file file).*1.
Proof.
  destruct file as [text|]; [|intros _; split; constructor].
  intros Htext. specialize (Htext text eq_refl). unfold read_env_file, readlines.
  pose proof (lines_from_bodies [] text (not_elem_of_nil _)) as Hlines.
  assert (Forall line_entry [] ∧ NoDup ([] : dict str).*1) as Hacc
    by (split; constructor).
  revert Hacc. generalize ([] : dict str) as acc.
  induction Hlines as [|line lines (body & Hline & H10 & Hin) _ IH];
    intros acc [Hacc Hnodup]; [done|].
  cbn [fold_left]. apply IH. split.
  - apply (read_env_line_entries acc line body); try done.
    intros H. destruct (Hin 13 H) as [H'|H']; [by apply not_elem_of_nil in H'|].
    done.
  - unfold read_env_line. repeat case_match; try done.
    by apply dict_set_distinct.
Qed.

Lemma update_env_vars_entries env_vars existing env :
  Forall line_entry existing →
  (∀ k v, (k, v) ∈ env_vars → v ≠ [] → line_entry (k, v)) →
  Forall line_entry (fold_left update_env_var env_vars (existing, env)).1.
Proof.
  revert existing env. induction env_vars as [|[k v] env_vars IH];
    intros existing env Hex Hev; [done|].
  rewrite update_env_vars_cons.
  assert (∀ k v, (k, v) ∈ env_vars → v ≠ [] → line_entry (k, v)) as Hev'
    by (intros ? ? ?; apply Hev; by right).
  case_bool_decide as Hv; [by apply IH|]. apply IH; [|done].
  apply dict_set_Forall; [|done]. apply Hev; [by left | done].
Qed.

Lemma update_env_vars_distinct env_vars existing env :
  NoDup existing.*1 →
  NoDup (fold_left update_env_var env_vars (existing, env)).1.*1.
Proof.
  revert existing env. induction env_vars as [|[k v] env_vars IH];
    intros existing env Hex; [done|].
  rewrite update_env_vars_cons. case_bool_decide; apply IH; [done|].
  by apply dict_set_distinct.
Qed.

(** Submitting what is stored already changes nothing. *)
Lemma update_env_vars_same env_vars existing env :
  (∀ k v, (k, v) ∈ env_vars → v ≠ [] →
     dict_get k existing = Some v ∧ env !! k = Some v) →
  fold_left update_env_var env_vars (existing, env) = (existing, env).
Proof.
  induction env_vars as [|[k v] env_vars IH]; intros H; [done|].
  rewrite update_env_vars_cons.
  assert (fold_left update_env_var env_vars (existing, env) = (existing, env))
    as IH' by (apply IH; intros ? ? ?; apply H; by right).
  case_bool_decide as Hv; [done|].
  destruct (H k v) as [Hd He]; [by left | done |].
  by rewrite dict_set_same, insert_id.
Qed.



(** X3. Saving the same values a second time changes nothing, neither in
    the dotfile nor in the environment (under the conditions of X2). *)
Theorem save_env_vars_idempotent env_vars (st : store) :
  NoDup env_vars.*1 →
  text_mode (dotfile st) →
  (∀ k v, (k, v) ∈ env_vars → v ≠ [] → line_entry (k, v)) →
  save_env_vars env_vars (save_env_vars env_vars st).2
  = save_env_vars env_vars st.
Proof.
  intros Hnodup Htext Hev.
  destruct (read_env_file_entries _ Htext) as [Hold Holdkeys].
  pose proof (update_env_vars_entries env_vars _ (environ st) Hold Hev) as Hnew.
  pose proof (update_env_vars_distinct env_vars _ (environ st) Holdkeys)
    as Hnewkeys.
  unfold save_env_vars.
  destruct (fold_left update_env_var env_vars
              (read_env_file (dotfile st), environ st)) as [entries env] eqn:E.
  cbn [fst snd dotfile environ] in *.
  assert (read_env_file (Some (write_env_file entries)) = entries) as ->.
  { unfold read_env_file. rewrite read_env_lines_written by done.
    by apply dict_of_pairs_distinct. }
  rewrite update_env_vars_same; [done|].
  intros k v Hin Hv.
  destruct (update_env_vars_set env_vars (read_env_file (dotfile st))
              (environ st) k v Hnodup Hin Hv) as [H1 H2].
  rewrite E in H1, H2. done.
Qed.

Lemma save_env_vars_idempotent_witness :
  let env_vars := [(u "HF_TOKEN", u "t 1"); (u "QWEN_API_KEY", [])] in
  let st := Store (Some (u "# keys" ++ [10] ++ u "QWEN_API_KEY = old " ++ [10]))
                  ∅ in
  save_env_vars env_vars (save_env_vars env_vars st).2
  = save_env_vars env_vars st.
Proof.
  intros env_vars st. apply save_env_vars_idempotent.
  - apply (bool_decide_unpack _). vm_compute. exact I.
  - intros text [= <-]. rewrite list_elem_of_In. vm_compute.
    intuition discriminate.
  - intros k v [[= -> ->]|[[= -> ->]|[]%not_elem_of_nil]%elem_of_cons]%elem_of_cons
      Hv; [|done].
    repeat split; try (vm_compute; reflexivity); try (vm_compute; discriminate);
      rewrite list_elem_of_In; vm_compute; intuition discriminate.
Defined.




End dotfile.

(** ** Loading the configuration, and the save button *)

Section configuration.
Implicit Types (found : list (str * option str)) (env : gmap str str).
Implicit Types (k v : str) (st : store).

Lemma ENV_NAMES_distinct : NoDup ENV_NAMES.
Proof. apply (bool_decide_unpack _). vm_compute. exact I. Qed.

Lemma dict_from_names {V} (f : str → V) (names : list str) (d : dict V) :
  NoDup (d.*1 ++ names) →
  fold_left (fun d k => dict_set k (f k) d) names d
  = d ++ List.map (fun k => (k, f k)) names.
Proof.
  revert d. induction names as [|n names IH]; intros d Hnodup; simpl.
  - by rewrite app_nil_r.
  - rewrite dict_set_fresh.
    + rewrite IH; rewrite <- ?app_assoc; [done|].
      rewrite fmap_app, <- app_assoc. done.
    + apply NoDup_app in Hnodup as (_ & Hnot & _).
      intros Hin. apply (Hnot n Hin). by left.
Qed.

Lemma load_dotenv_lookup found env1 env2 k :
  env1 !! k = env2 !! k →
  load_dotenv found env1 !! k = load_dotenv found env2 !! k.
Proof.
  unfold load_dotenv. revert env1 env2.
  induction found as [|[k' v'] found IH]; intros env1 env2 H; simpl; [done|].
  apply IH. destruct (decide (k' = k)) as [->|Hne].
  - rewrite <- H. destruct (env1 !! k) eqn:E; [congruence|].
    destruct v'; [|congruence]. by rewrite !lookup_insert_eq.
  - destruct (env1 !! k'), (env2 !! k'), v';
      rewrite ?lookup_insert_ne by done; done.
Qed.

(** A variable the environment lacks gets the value the dotfile binds it
    to, if it binds it to one. *)
Lemma load_dotenv_binding found env k :
  NoDup found.*1 → env !! k = None →
  load_dotenv found env !! k
  = match dict_get k found with Some (Some v) => Some v | _ => None end.
Proof.
  revert env. induction found as [|[k' v'] found IH]; intros env Hnodup Hk;
    [done|].
  rewrite fmap_cons in Hnodup. apply NoDup_cons in Hnodup as [Hfresh Hnodup].
  cbn [fst] in Hfresh. cbn [dict_get].
  destruct (decide (k = k')) as [<-|Hne].
  - unfold load_dotenv. cbn [fold_left fst snd]. rewrite Hk.
    destruct v' as [v|].
    + apply load_dotenv_keeps, lookup_insert_eq.
    + fold (load_dotenv found env). rewrite IH by done.
      apply dict_get_None in Hfresh. by rewrite Hfresh.
  - rewrite <- IH with (env := env) by done.
    unfold load_dotenv at 1. cbn [fold_left fst snd].
    apply load_dotenv_lookup.
    destruct (env !! k'), v'; rewrite ?lookup_insert_ne by done; done.
Qed.

(** X5. [load_env_vars] reports the variables of [ENV_GROUPS], each once and
    in the order of the groups; it leaves the dotfile alone and takes no
    variable from the environment nor changes one that is set. *)
Theorem load_env_vars_names found st :
  (load_env_vars found st).1.*1 = ENV_NAMES
  ∧ dotfile (load_env_vars found st).2 = dotfile st
  ∧ ∀ k v, environ st !! k = Some v →
           environ (load_env_vars found st).2 !! k = Some v.
Proof.
  unfold load_env_vars. cbn [fst snd dotfile environ]. split; [|split].
  - rewrite dict_from_names by apply ENV_NAMES_distinct. cbn [app].
    rewrite <- list_fmap_compose. apply list_fmap_id.
  - done.
  - intros k v. apply load_dotenv_keeps.
Qed.

(** X6. The value reported for a variable: the one the environment has for
    it; failing that, the one the dotfile binds it to; failing that, the
    empty string. *)
Theorem load_env_vars_precedence found st k :
  k ∈ ENV_NAMES → NoDup found.*1 →
  dict_get k (load_env_vars found st).1
  = Some match environ st !! k with
         | Some v => v
         | None => match dict_get k found with
                   | Some (Some v) => v
                   | _ => []
                   end
         end.
Proof.
  intros Hk Hnodup. unfold load_env_vars. cbn [fst].
  rewrite (dict_get_fold_set (V:=str)
             (fun k => default [] (load_dotenv found (environ st) !! k)))
    by done.
  f_equal. destruct (environ st !! k) as [v|] eqn:E.
  - by rewrite (load_dotenv_keeps _ _ _ _ E).
  - rewrite load_dotenv_binding by done.
    by destruct (dict_get k found) as [[v|]|].
Qed.

Lemma load_env_vars_precedence_witness :
  let found := [(u "HF_TOKEN", Some (u "file")); (u "QWEN_API_KEY", None);
                (u "GOOGLE_API_KEY", Some (u "g"))] in
  let st := Store None {[u "HF_TOKEN" := u "env"]} in
  dict_get (u "HF_TOKEN") (load_env_vars found st).1 = Some (u "env")
  ∧ dict_get (u "GOOGLE_API_KEY") (load_env_vars found st).1 = Some (u "g")
  ∧ dict_get (u "QWEN_API_KEY") (load_env_vars found st).1 = Some [].
Proof.
  intros found st.
  assert (NoDup found.*1) as Hnodup
    by (apply (bool_decide_unpack _); vm_compute; exact I).
  split; [|split].
  - refine (eq_trans (load_env_vars_precedence found st (u "HF_TOKEN")
                        _ Hnodup) _).
    + apply (bool_decide_unpack _). vm_compute. exact I.
    + vm_compute. reflexivity.
  - refine (eq_trans (load_env_vars_precedence found st (u "GOOGLE_API_KEY")
                        _ Hnodup) _).
    + apply (bool_decide_unpack _). vm_compute. exact I.
    + vm_compute. reflexivity.
  - refine (eq_trans (load_env_vars_precedence found st (u "QWEN_API_KEY")
                        _ Hnodup) _).
    + apply (bool_decide_unpack _). vm_compute. exact I.
    + vm_compute. reflexivity.
Defined.




End configuration.

(** ** The script descriptions, the stop button, the relay thread *)

Section handlers.

(** X8. Every script the dropdown offers has a description of its own; any
    other name gets the text that says there is none. *)
Theorem get_script_info_choices (script_name : str) :
  (script_name ∈ SCRIPTS.*1 →
   dict_get script_name SCRIPT_DESCRIPTIONS = Some (get_script_info script_name)
   ∧ get_script_info script_name ≠ u "无描述信息")
  ∧ (script_name ∉ SCRIPTS.*1 →
     get_script_info script_name = u "无描述信息").
Proof.
  assert (SCRIPT_DESCRIPTIONS.*1 = SCRIPTS.*1) as Hkeys
    by (vm_compute; reflexivity).
  split.
  - intros Hin. set (keys := SCRIPTS.*1) in Hin. vm_compute in keys.
    subst keys.
    repeat (apply elem_of_cons in Hin as [->|Hin]);
      [..|by apply not_elem_of_nil in Hin];
      (split; [vm_compute; reflexivity | vm_compute; discriminate]).
  - intros Hnot. rewrite <- Hkeys in Hnot. apply dict_get_None in Hnot.
    unfold get_script_info. by rewrite Hnot.
Qed.

(** X9. The stop button when there is nothing to stop: the message that no
    process is running is returned exactly when nothing is done, neither to a
    process nor to the queue, and that is exactly when no process was started
    or the one started has exited. *)
Theorem terminate_process_idle (current_process : option Popen)
    (os_name : str) (expired : bool) :
  ((terminate_process current_process os_name expired).2
   = u "❌ 没有正在运行的进程"
   ↔ (terminate_process current_process os_name expired).1 = [])
  ∧ ((terminate_process current_process os_name expired).1 = []
     ↔ ∀ process, current_process = Some process → poll process ≠ None).
Proof.
  unfold terminate_process.
  destruct current_process as [process|]; [destruct (poll process) eqn:E|];
    cbn [fst snd app].
  - split; [done|]. split; [|done]. intros _ p [= <-]. by rewrite E.
  - split; split; try done. intros H. by destruct (H process eq_refl).
  - split; [done|]. split; [|done]. by intros _ p.
Qed.

(** X10. The stop button uses force only after the grace period: a [kill]
    comes after a request to terminate and a wait of five seconds that
    expired, and is followed by the line put on the queue. *)
Theorem terminate_process_kill (current_process : option Popen)
    (os_name : str) (expired : bool) (before after : list stop_event) :
  (terminate_process current_process os_name expired).1
  = before ++ Kill :: after →
  expired = true
  ∧ (∃ request, before = [request; WaitFor 5]
                ∧ (request = SendCtrlBreak ∨ request = SendTerminate)
                ∧ (request = SendCtrlBreak ↔ os_name = u "nt"))
  ∧ after = [QueuePut (u "进程已终止" ++ [10])].
Proof.
  unfold terminate_process.
  destruct current_process as [process|]; [destruct (poll process)|];
    cbn [fst snd]; try by destruct before.
  set (request := if bool_decide (os_name = u "nt") then SendCtrlBreak
                  else SendTerminate).
  assert (request ≠ Kill) as Hrequest by (subst request; by case_bool_decide).
  assert ((request = SendCtrlBreak ∨ request = SendTerminate)
          ∧ (request = SendCtrlBreak ↔ os_name = u "nt")) as Hos.
  { subst request. case_bool_decide; split; auto; split; done. }
  destruct expired; cbn [app];
    destruct before as [|e1 [|e2 [|e3 [|e4 before]]]]; cbn [app];
    intros H; simplify_eq.
  - split; [done|]. split; [by eexists|done].
  - by destruct before.
Qed.

Lemma terminate_process_kill_witness :
  true = true
  ∧ (∃ request, [SendTerminate; WaitFor 5] = [request; WaitFor 5]
                ∧ (request = SendCtrlBreak ∨ request = SendTerminate)
                ∧ (request = SendCtrlBreak ↔ u "posix" = u "nt"))
  ∧ [QueuePut (u "进程已终止" ++ [10])] = [QueuePut (u "进程已终止" ++ [10])].
Proof.
  apply (terminate_process_kill (Some (Process None)) (u "posix") true
           [SendTerminate; WaitFor 5] [QueuePut (u "进程已终止" ++ [10])]).
  vm_compute. reflexivity.
Defined.

Lemma read_output_lines reads f queue :
  ∃ lines rest,
    reads = lines ++ rest
    ∧ read_output reads f queue = (f ++ join lines, queue ++ lines)
    ∧ Forall (fun line => line ≠ []) lines
    ∧ (rest = [] ∨ head rest = Some []).
Proof.
  revert f queue. induction reads as [|line reads IH]; intros f queue.
  - exists [], []. simpl. rewrite !app_nil_r. repeat split; auto.
  - cbn [read_output]. case_bool_decide as Hline.
    + exists [], (line :: reads). simpl. rewrite !app_nil_r.
      repeat split; auto. right. by rewrite Hline.
    + destruct (IH (f ++ line) (queue ++ [line]))
        as (lines & rest & -> & -> & Hlines & Hrest).
      exists (line :: lines), rest. cbn [join concat app].
      rewrite <- !app_assoc. repeat split; auto.
Qed.

(** X11. The relay thread: the log file holds the lines put on the queue, in
    that order and nothing else; they are the output of the child up to its
    end, and none of them is empty. *)
Theorem read_output_relays (reads : list str) :
  ∃ lines,
    read_output reads [] [] = (join lines, lines)
    ∧ lines `prefix_of` reads
    ∧ Forall (fun line => line ≠ []) lines
    ∧ ∀ line, reads !! length lines = Some line → line = [].
Proof.
  destruct (read_output_lines reads [] []) as (lines & rest & -> & H & Hl & Hr).
  exists lines. split; [done|]. split; [by apply prefix_app_r|].
  split; [done|]. intros line.
  rewrite lookup_app_r, Nat.sub_diag by done.
  destruct Hr as [->|Hr]; [done|]. destruct rest; [done|].
  simpl in *. congruence.
Qed.

End handlers.

(** ** The answer and the transcript as the log grows *)

Section log_growth.
Implicit Types (logs more skipped rest : list str) (t : transcript).

Lemma extract_answer_grows logs more :
  Exists (occurs (u "Answer:")) logs →
  extract_answer (logs ++ more) = extract_answer logs.
Proof.
  induction logs as [|l logs IH]; intros H; [by inversion H|].
  cbn [app extract_answer]. destruct (contains (u "Answer:") l) eqn:E; [done|].
  apply IH. inversion H as [? ? Hl|]; subst; [|done].
  apply contains_spec in Hl. congruence.
Qed.

Lemma extract_answer_found logs :
  extract_answer logs ≠ [] → Exists (occurs (u "Answer:")) logs.
Proof.
  induction logs as [|l logs IH]; [done|]. cbn [extract_answer].
  destruct (contains (u "Answer:") l) eqn:E.
  - intros _. left. by apply contains_spec.
  - intros H. right. by apply IH.
Qed.

(** X12. Once a line with the token is in the log, and so once there is an
    answer, the lines that come after it do not change the answer. *)
Theorem extract_answer_stable logs more :
  Exists (occurs (u "Answer:")) logs ∨ extract_answer logs ≠ [] →
  extract_answer (logs ++ more) = extract_answer logs.
Proof.
  intros [H|H]; [|apply extract_answer_found in H];
    by apply extract_answer_grows.
Qed.

Lemma extract_answer_stable_witness :
  extract_answer ([u "Answer: 42" ++ [10]] ++ [u "Answer: 7" ++ [10]])
  = extract_answer [u "Answer: 42" ++ [10]].
Proof.
  apply extract_answer_stable. right. vm_compute. discriminate.
Defined.

(** X13. There is no answer exactly when no line has the token, or when in the
    first line that has it only white space follows its first occurrence. *)
Theorem extract_answer_empty logs :
  extract_answer logs = [] ↔
  Forall (fun l => ¬ occurs (u "Answer:") l) logs
  ∨ ∃ before line after head tail,
      logs = before ++ line :: after
      ∧ Forall (fun l => ¬ occurs (u "Answer:") l) before
      ∧ first_occurrence (u "Answer:") line head tail
      ∧ blank tail.
Proof.
  split.
  - induction logs as [|l logs IH]; [left; constructor|].
    cbn [extract_answer]. destruct (contains (u "Answer:") l) eqn:E.
    + unfold split_once. unfold contains in E.
      destruct (find (u "Answer:") l) as [i|] eqn:F; [|done].
      cbn [mbind option_bind]. intros H%strip_empty. right.
      exists [], l, logs, (take i l), (drop (i + length (u "Answer:")) l).
      split; [done|]. split; [constructor|]. split; [|done].
      by apply find_is_first.
    + apply contains_false in E.
      intros [H|(before & line & after & head & tail & -> & Hb & Hf & Ht)]%IH.
      * left. by constructor.
      * right. exists (l :: before), line, after, head, tail.
        split; [done|]. split; [by constructor | done].
  - intros [H|(before & line & after & head & tail & -> & Hb & Hf & Ht)].
    + rewrite <- (app_nil_r logs). by rewrite extract_answer_skip.
    + rewrite extract_answer_skip by done. cbn [extract_answer].
      assert (contains (u "Answer:") line = true) as ->.
      { apply contains_spec. destruct Hf as [Hf _]. by exists head, tail. }
      rewrite (split_once_first _ _ _ _ Hf). by apply strip_blank.
Qed.

Lemma scan_chat_history_skips skipped rest :
  Forall (fun l => ¬ occurs (u "chat_history") l) skipped →
  scan_chat_history (skipped ++ rest) = scan_chat_history rest.
Proof.
  induction 1 as [|l skipped Hl _ IH]; [done|]. cbn [app scan_chat_history].
  apply contains_false in Hl. by rewrite Hl.
Qed.

(** The first line with the marker whose text from the opening bracket on
    decodes settles the result. *)
Lemma scan_chat_history_decoded skipped (before tail : str) rest chat_data :
  Forall (fun l => ¬ occurs (u "chat_history") l) skipped →
  occurs (u "chat_history") (before ++ 91 :: tail) →
  91 ∉ before →
  loads (strip (91 :: tail)) = Ok chat_data →
  scan_chat_history (skipped ++ (before ++ 91 :: tail) :: rest)
  = (items ← py_iter chat_data;
     formatted_chat ← format_chat items [];
     Ok (Some formatted_chat)).
Proof.
  intros Hskipped Hmarker Hnot Hloads.
  rewrite scan_chat_history_skips by done. cbn [scan_chat_history].
  apply contains_spec in Hmarker. rewrite Hmarker.
  rewrite find_bracket, drop_app_length by done.
  assert (assemble (strip (91 :: tail)) rest = Ok (strip (91 :: tail))) as ->.
  { unfold assemble. destruct (last (strip (91 :: tail))) as [c|] eqn:Hlast.
    - assert (c = 93) as ->; [|done].
      apply (loads_closed _ _ _ Hloads); [|done|].
      + destruct (strip_bracket tail) as [t ->]. done.
      + destruct (strip_trimmed (91 :: tail)) as (_ & _ & Hend).
        specialize (Hend c Hlast). destruct (is_ws c) eqn:Hws; [|done].
        apply is_ws_isspace in Hws. congruence.
    - destruct (strip_bracket tail) as [t Ht]. rewrite Ht in Hlast.
      apply last_None in Hlast. done. }
  rewrite bind_Ok, Hloads, bind_Ok. apply catch_decoded.
Qed.

(** X14. Once a line with the marker holds, from its first opening bracket to
    its end, a text that decodes, the result is settled: the lines after it,
    and lines without the marker before it, play no part. *)
Theorem extract_chat_history_first_decoded
    skipped (before tail : str) rest (chat_data : json) :
  Forall (fun l => ¬ occurs (u "chat_history") l) skipped →
  occurs (u "chat_history") (before ++ 91 :: tail) →
  91 ∉ before →
  loads (strip (91 :: tail)) = Ok chat_data →
  extract_chat_history (skipped ++ (before ++ 91 :: tail) :: rest)
  = extract_chat_history [before ++ 91 :: tail].
Proof.
  intros Hskipped Hmarker Hnot Hloads. unfold extract_chat_history.
  pose proof (scan_chat_history_decoded [] before tail [] chat_data
                (List.Forall_nil _) Hmarker Hnot Hloads) as Hsingle.
  f_equal. etrans; [by eapply scan_chat_history_decoded|].
  symmetry. exact Hsingle.
Qed.

Lemma extract_chat_history_first_decoded_witness :
  extract_chat_history
    ([u "working" ++ [10]]
     ++ (u "chat_history: " ++ 91 :: q "{'role': 'user', 'content': 'hi'}]" ++ [10])
     :: [q "chat_history: [{'role': 'user', 'content': 'bye'}]" ++ [10]])
  = extract_chat_history
      [u "chat_history: " ++ 91 :: q "{'role': 'user', 'content': 'hi'}]" ++ [10]].
Proof.
  apply (extract_chat_history_first_decoded
           [u "working" ++ [10]] (u "chat_history: ")
           (q "{'role': 'user', 'content': 'hi'}]" ++ [10])
           [q "chat_history: [{'role': 'user', 'content': 'bye'}]" ++ [10]]
           (JArray [JObject [(u "role", JString (u "user"));
                             (u "content", JString (u "hi"))]])).
  - repeat constructor. intros H. apply contains_spec in H. vm_compute in H.
    discriminate.
  - apply contains_spec. vm_compute. reflexivity.
  - rewrite list_elem_of_In. vm_compute. intuition discriminate.
  - vm_compute. reflexivity.
Defined.







End log_growth.

(** ** Runs of the session driver *)

Section runs.
Implicit Types (passes before after : list pass) (p : pass) (d : driver).
Implicit Types (evs : list event) (env : request_env) (fin : ending).

(** The loop spawns nothing. *)
Lemma drive_adds start file passes d :
  ∃ new, events (drive start file passes d) = new ++ events d
         ∧ Forall (fun e => ∀ cmd child_env, e ≠ Spawn cmd child_env) new.
Proof.
  revert d. induction passes as [|p passes IH]; intros d; cbn [drive].
  - exists []. split; [done | constructor].
  - destruct (timeout <? time_now p - start)%Z.
    + destruct (poll (at_lock p)); cbn [events].
      * exists []. split; [done | constructor].
      * eexists [_; _]. split; [done|]. by repeat constructor.
    + edestruct IH as (new & -> & Hnew). cbn [events].
      eexists (new ++ [_]). rewrite <- app_assoc. split; [done|].
      apply Forall_app. split; [done|]. by repeat constructor.
Qed.

(** The passes made within the budget: a snapshot for each, and the lines
    that arrived collected. *)
Lemma drive_passes start file passes lines evs :
  Forall (within_budget start) passes →
  ∃ yields,
    length yields = length passes
    ∧ Forall is_yield yields
    ∧ drive start file passes (Driver lines [] evs)
      = Driver (lines ++ concat (List.map arrived passes)) [] (yields ++ evs).
Proof.
  intros H. revert lines evs.
  induction H as [|p passes Hp _ IH]; intros lines evs.
  - exists []. repeat split; [constructor|]. simpl. by rewrite app_nil_r.
  - cbn [drive log_queue logs events].
    apply Z.ltb_ge in Hp. rewrite Hp. cbn [app].
    edestruct IH as (yields & Hlen & Hy & ->).
    eexists (yields ++ [_]). repeat split.
    + rewrite length_app. simpl. lia.
    + apply Forall_app. split; [done|]. constructor; [by eexists|constructor].
    + cbn [List.map concat]. by rewrite <- !app_assoc.
Qed.

(** Either every pass is within the budget, or there is a first one that is
    not. *)
Lemma passes_split start passes :
  Forall (within_budget start) passes
  ∨ ∃ before p after,
      passes = before ++ p :: after
      ∧ Forall (within_budget start) before
      ∧ ¬ within_budget start p.
Proof.
  induction passes as [|p passes IH]; [left; constructor|].
  destruct (decide (time_now p - start ≤ timeout)%Z) as [Hp|Hp].
  - destruct IH as [H|(before & p' & after & -> & Hb & Hp')].
    + left. by constructor.
    + right. exists (p :: before), p', after. split; [done|].
      split; [by constructor | done].
  - right. exists [], p, passes. split; [done|]. split; [constructor | done].
Qed.

Lemma is_yield_Terminate yields : Forall is_yield yields → Terminate ∉ yields.
Proof.
  intros H Hin. rewrite Forall_forall in H. by destruct (H _ Hin) as [s ?].
Qed.

(** X17. A run with a question for a script on offer: the child is spawned
    once, first of all, as the adapter with that script, and its environment
    is the one of the interface with the question added. *)
Theorem run_script_spawns_once
    (script_dropdown script_name question : str) env passes fin :
  dict_get script_dropdown SCRIPTS = Some script_name →
  strip question ≠ [] →
  ∃ child_env rest,
    trace (run_script script_dropdown question env passes fin)
    = Spawn [executable env; u "owl/script_adapter.py"; u "owl/" ++ script_name]
            child_env :: rest
    ∧ child_env !! u "OWL_QUESTION" = Some question
    ∧ (∀ k, k ≠ u "OWL_QUESTION" → child_env !! k = os_environ env !! k)
    ∧ ∀ cmd' child_env', Spawn cmd' child_env' ∉ rest.
Proof.
  intros Hs Hq. unfold run_script. rewrite Hs.
  rewrite bool_decide_false by done. cbn [trace].
  edestruct drive_adds as (new & -> & Hnew). cbn [events].
  rewrite reverse_app, reverse_singleton. cbn [app].
  eexists _, _. split; [done|]. split; [apply lookup_insert_eq|].
  split; [intros k Hk; by apply lookup_insert_ne|].
  intros cmd' child_env' Hin. rewrite elem_of_reverse in Hin.
  rewrite Forall_forall in Hnew. by apply (Hnew _ Hin cmd' child_env').
Qed.

Lemma run_script_spawns_once_witness :
  ∃ child_env rest,
    trace (run_script (u "Mini") (u "2+2?")
             (RequestEnv (u "python") (u "t") {[u "HF_TOKEN" := u "h"]} 0)
             [Pass 1 (Process None) [] (Process None)]
             (Ending [] (Process (Some 0%Z))))
    = Spawn [u "python"; u "owl/script_adapter.py"; u "owl/" ++ u "run_mini.py"]
            child_env :: rest
    ∧ child_env !! u "OWL_QUESTION" = Some (u "2+2?")
    ∧ (∀ k, k ≠ u "OWL_QUESTION" →
            child_env !! k = ({[u "HF_TOKEN" := u "h"]} : gmap str str) !! k)
    ∧ ∀ cmd' child_env', Spawn cmd' child_env' ∉ rest.
Proof.
  assert (dict_get (u "Mini") SCRIPTS = Some (u "run_mini.py")) as Hs
    by (vm_compute; reflexivity).
  assert (strip (u "2+2?") ≠ []) as Hq by (vm_compute; discriminate).
  exact (run_script_spawns_once (u "Mini") (u "run_mini.py") (u "2+2?")
           (RequestEnv (u "python") (u "t") {[u "HF_TOKEN" := u "h"]} 0)
           [Pass 1 (Process None) [] (Process None)]
           (Ending [] (Process (Some 0%Z))) Hs Hq).
Defined.

(** X18. A run whose child exits within the budget: nothing but the spawning
    and one snapshot for each pass of the loop happens, so the child is never
    terminated; the final log is every line that arrived, in order, and the
    final status and answer are those of the child and of that log. *)
Theorem run_script_within_budget
    (script_dropdown script_name question : str) env passes fin :
  dict_get script_dropdown SCRIPTS = Some script_name →
  strip question ≠ [] →
  Forall (within_budget (start_time env)) passes →
  let r := run_script script_dropdown question env passes fin in
  let lines := concat (List.map arrived passes) ++ late fin in
  (∃ cmd child_env yields,
      trace r = Spawn cmd child_env :: yields
      ∧ Forall is_yield yields ∧ length yields = length passes)
  ∧ ∃ shot,
      returned r = Ok shot
      ∧ log_text shot = join lines
      ∧ answer shot = extract_answer lines
      ∧ status shot = status_message (at_return fin).
Proof.
  intros Hs Hq Hpasses r lines. subst r lines.
  unfold run_script. rewrite Hs. rewrite bool_decide_false by done.
  edestruct drive_passes as (yields & Hlen & Hy & ->); [exact Hpasses|].
  cbn [trace returned logs log_queue events app]. split.
  - eexists _, _, (reverse yields).
    rewrite reverse_app, reverse_singleton. split; [done|].
    split; [by apply Forall_reverse | by rewrite length_reverse].
  - edestruct extract_chat_history_total as [h ->]. rewrite bind_Ok.
    eexists. split; [done|]. by cbn [log_text answer status].
Qed.

Lemma run_script_within_budget_witness :
  let r := run_script (u "Qwen") (u "What is 6 x 7?")
             (RequestEnv (u "python") (u "20250101_120000") ∅ 100)
             [Pass 101 (Process None) [u "thinking" ++ [10]] (Process None);
              Pass 102 (Process None) [u "Answer: 42" ++ [10]] (Process None)]
             (Ending [u "bye" ++ [10]] (Process (Some 0%Z))) in
  let lines := concat [[u "thinking" ++ [10]]; [u "Answer: 42" ++ [10]]]
               ++ [u "bye" ++ [10]] in
  (∃ cmd child_env yields,
      trace r = Spawn cmd child_env :: yields
      ∧ Forall is_yield yields ∧ length yields = 2%nat)
  ∧ ∃ shot,
      returned r = Ok shot
      ∧ log_text shot = join lines
      ∧ answer shot = extract_answer lines
      ∧ status shot = status_message (Process (Some 0%Z)).
Proof.
  apply (run_script_within_budget (u "Qwen") (u "run_qwen.py")
           (u "What is 6 x 7?")
           (RequestEnv (u "python") (u "20250101_120000") ∅ 100)
           [Pass 101 (Process None) [u "thinking" ++ [10]] (Process None);
            Pass 102 (Process None) [u "Answer: 42" ++ [10]] (Process None)]
           (Ending [u "bye" ++ [10]] (Process (Some 0%Z)))).
  - vm_compute. reflexivity.
  - vm_compute. discriminate.
  - repeat constructor; unfold within_budget, timeout; simpl; lia.
Defined.

(** X19. The driver terminates the child in one case only: a pass of the loop
    finds the budget exceeded, every pass before it having been within the
    budget, and the child is still running at the check made under the
    lock. *)
Theorem run_script_terminates_iff
    (script_dropdown script_name question : str) env passes fin :
  dict_get script_dropdown SCRIPTS = Some script_name →
  strip question ≠ [] →
  Terminate ∈ trace (run_script script_dropdown question env passes fin)
  ↔ ∃ before p after,
      passes = before ++ p :: after
      ∧ Forall (within_budget (start_time env)) before
      ∧ ¬ within_budget (start_time env) p
      ∧ poll (at_lock p) = None.
Proof.
  intros Hs Hq. unfold run_script. rewrite Hs.
  rewrite bool_decide_false by done. cbn [trace].
  rewrite elem_of_reverse.
  assert (∀ before p after,
            Forall (within_budget (start_time env)) before →
            ¬ within_budget (start_time env) p →
            ∀ file evs,
            (Terminate ∈ events (drive (start_time env) file
                                   (before ++ p :: after) (Driver [] [] evs))
             ↔ poll (at_lock p) = None ∨ Terminate ∈ evs)) as Hover.
  { intros before p after Hb Hp file evs.
    edestruct (drive_within_budget (start_time env) file before (p :: after))
      as (yields & Hy & ->); [exact Hb|].
    cbn [drive log_queue logs events].
    unfold within_budget in Hp. apply Z.nle_gt, Z.ltb_lt in Hp. rewrite Hp.
    pose proof (is_yield_Terminate _ Hy) as Hnot.
    destruct (poll (at_lock p)) as [code|]; cbn [events].
    - rewrite elem_of_app. split; [intros [?|?]; [done | by right]|].
      intros [?|?]; [done | by right].
    - split; [by left|]. intros _. right. by left. }
  split.
  - intros Hin.
    destruct (passes_split (start_time env) passes)
      as [Hall|(before & p & after & -> & Hb & Hp)].
    + exfalso. rewrite <- (app_nil_r passes) in Hin.
      edestruct (drive_within_budget (start_time env)) as (yields & Hy & Hd);
        [exact Hall|]. rewrite Hd in Hin. cbn [drive events] in Hin.
      apply elem_of_app in Hin as [Hin|Hin].
      * by apply (is_yield_Terminate _ Hy).
      * by apply list_elem_of_singleton in Hin.
    + exists before, p, after. split; [done|]. split; [done|]. split; [done|].
      apply Hover in Hin; [|done..]. destruct Hin as [?|Hin]; [done|].
      by apply list_elem_of_singleton in Hin.
  - intros (before & p & after & -> & Hb & Hp & Hlock).
    apply Hover; [done..|]. by left.
Qed.

Lemma run_script_terminates_iff_witness :
  Terminate ∈ trace (run_script (u "Qwen") (u "What is 6 x 7?")
                       (RequestEnv (u "python") (u "t") ∅ 100)
                       [Pass 101 (Process None) [] (Process None);
                        Pass 1901 (Process None) [] (Process None)]
                       (Ending [] (Process (Some 0%Z))))
  ↔ ∃ before p after,
      [Pass 101 (Process None) [] (Process None);
       Pass 1901 (Process None) [] (Process None)] = before ++ p :: after
      ∧ Forall (within_budget 100) before
      ∧ ¬ within_budget 100 p
      ∧ poll (at_lock p) = None.
Proof.
  apply (run_script_terminates_iff (u "Qwen") (u "run_qwen.py")
           (u "What is 6 x 7?") (RequestEnv (u "python") (u "t") ∅ 100)).
  - vm_compute. reflexivity.
  - vm_compute. discriminate.
Defined.

(** X20. A child that exits just as the budget runs out: when the pass that
    finds the budget exceeded finds the child exited at the check made under
    the lock, the loop is left without terminating anything and without the
    line that records a timeout; the final log is what was collected, then
    what was on the queue at that pass, then what arrived later. The passes
    after it do not happen. *)
Theorem run_script_deadline_exit
    (script_dropdown script_name question : str) (env : request_env)
    (before : list pass) (p : pass) (after : list pass) (fin : ending)
    (code : Z) :
  dict_get script_dropdown SCRIPTS = Some script_name →
  strip question ≠ [] →
  Forall (within_budget (start_time env)) before →
  ¬ within_budget (start_time env) p →
  poll (at_lock p) = Some code →
  let r := run_script script_dropdown question env (before ++ p :: after) fin in
  (∃ cmd child_env yields,
      trace r = Spawn cmd child_env :: yields
      ∧ Forall is_yield yields ∧ length yields = length before)
  ∧ ∃ shot,
      returned r = Ok shot
      ∧ log_text shot
        = join (concat (List.map arrived before) ++ arrived p ++ late fin)
      ∧ status shot = status_message (at_return fin).
Proof.
  intros Hs Hq Hbefore Hp Hlock r. subst r.
  unfold run_script. rewrite Hs. rewrite bool_decide_false by done.
  assert (∀ lines file evs,
            ∃ yields,
              length yields = length before ∧ Forall is_yield yields
              ∧ drive (start_time env) file (before ++ p :: after)
                  (Driver lines [] evs)
                = Driver (lines ++ concat (List.map arrived before))
                         (arrived p) (yields ++ evs)) as Hdrive.
  { clear Hs Hq. unfold within_budget in Hp.
    apply Z.nle_gt, Z.ltb_lt in Hp.
    induction Hbefore as [|b before Hb _ IH]; intros lines file evs.
    - exists []. split; [done|]. split; [constructor|].
      cbn [app drive log_queue logs events List.map concat].
      by rewrite Hp, Hlock, app_nil_r.
    - cbn [app drive log_queue logs events].
      apply Z.ltb_ge in Hb. rewrite Hb. cbn [app].
      edestruct IH as (yields & Hlen & Hy & ->).
      eexists (yields ++ [_]). split; [rewrite length_app; simpl; lia|].
      split.
      + apply Forall_app. split; [done|].
        constructor; [by eexists|constructor].
      + cbn [List.map concat]. by rewrite <- !app_assoc. }
  edestruct Hdrive as (yields & Hlen & Hy & ->).
  cbn [trace returned logs log_queue events app]. split.
  - eexists _, _, (reverse yields).
    rewrite reverse_app, reverse_singleton. split; [done|].
    split; [by apply Forall_reverse | by rewrite length_reverse].
  - edestruct extract_chat_history_total as [h ->]. rewrite bind_Ok.
    eexists. split; [done|]. by cbn [log_text status].
Qed.

Lemma run_script_deadline_exit_witness :
  let r := run_script (u "Qwen") (u "What is 6 x 7?")
             (RequestEnv (u "python") (u "t") ∅ 100)
             ([Pass 101 (Process None) [u "thinking" ++ [10]] (Process None)]
              ++ Pass 1901 (Process (Some 0%Z)) [u "Answer: 42" ++ [10]]
                           (Process (Some 0%Z))
              :: [])
             (Ending [u "bye" ++ [10]] (Process (Some 0%Z))) in
  (∃ cmd child_env yields,
      trace r = Spawn cmd child_env :: yields
      ∧ Forall is_yield yields ∧ length yields = 1%nat)
  ∧ ∃ shot,
      returned r = Ok shot
      ∧ log_text shot
        = join (concat [[u "thinking" ++ [10]]] ++ [u "Answer: 42" ++ [10]]
                ++ [u "bye" ++ [10]])
      ∧ status shot = status_message (Process (Some 0%Z)).
Proof.
  apply (run_script_deadline_exit (u "Qwen") (u "run_qwen.py")
           (u "What is 6 x 7?") (RequestEnv (u "python") (u "t") ∅ 100)
           [Pass 101 (Process None) [u "thinking" ++ [10]] (Process None)]
           (Pass 1901 (Process (Some 0%Z)) [u "Answer: 42" ++ [10]]
                 (Process (Some 0%Z)))
           [] (Ending [u "bye" ++ [10]] (Process (Some 0%Z))) 0%Z).
  - vm_compute. reflexivity.
  - vm_compute. discriminate.
  - repeat constructor. unfold within_budget, timeout. simpl. lia.
  - unfold within_budget, timeout. simpl. lia.
  - reflexivity.
Defined.

Lemma staged_grows evs (current more : list str) :
  staged evs current → staged evs (current ++ more).
Proof.
  revert current. induction evs as [|e evs IH]; intros current; [done|].
  destruct e; cbn [staged]; try apply IH.
  intros (lines & more' & -> & Ht & Ha & Hs).
  exists lines, (more' ++ more). by rewrite <- app_assoc.
Qed.

Lemma staged_yield evs1 (s : snapshot) evs2 (current : list str) :
  staged (evs1 ++ Yield s :: evs2) current →
  ∃ lines more,
    current = lines ++ more
    ∧ log_text s = join lines ∧ answer s = extract_answer lines
    ∧ staged evs2 lines.
Proof.
  revert current. induction evs1 as [|e evs1 IH]; intros current; [done|].
  destruct e; cbn [app staged]; try apply IH.
  intros (lines' & more' & -> & _ & _ & Hs).
  destruct (IH _ Hs) as (lines & more & -> & Ht & Ha & Hs').
  exists lines, (more ++ more'). by rewrite <- app_assoc.
Qed.

Lemma drive_staged start file passes d :
  staged (events d) (logs d) →
  staged (events (drive start file passes d))
         (logs (drive start file passes d)).
Proof.
  revert d. induction passes as [|p passes IH]; intros d Hd; [done|].
  cbn [drive]. destruct (timeout <? time_now p - start)%Z.
  - by destruct (poll (at_lock p)).
  - apply IH. cbn [events logs staged].
    eexists _, []. rewrite app_nil_r. repeat split. by apply staged_grows.
Qed.

(** The snapshots of a run were taken from logs that only grew, up to the
    log that the final snapshot shows. *)
Lemma run_script_staged (script_dropdown question : str) env passes fin :
  ∃ final,
    staged (reverse (trace (run_script script_dropdown question env passes fin)))
           final
    ∧ ∀ shot,
        returned (run_script script_dropdown question env passes fin) = Ok shot →
        trace (run_script script_dropdown question env passes fin) ≠ [] →
        log_text shot = join final ∧ answer shot = extract_answer final.
Proof.
  unfold run_script. destruct (dict_get script_dropdown SCRIPTS) as [name|];
    [|by exists []]. case_bool_decide; [by exists []|].
  cbn [trace returned]. rewrite reverse_involutive.
  eexists. split.
  - apply staged_grows. by apply drive_staged.
  - intros shot Hshot _. edestruct extract_chat_history_total as [h Hh].
    rewrite Hh, bind_Ok in Hshot. injection Hshot as <-. done.
Qed.

(** X21. The log shown only grows: the log text of a snapshot begins the log
    text of every later snapshot and of the final one. *)
Theorem run_script_log_grows
    (script_dropdown question : str) env passes fin
    (earlier : list event) (a : snapshot) (later : list event) :
  trace (run_script script_dropdown question env passes fin)
  = earlier ++ Yield a :: later →
  (∀ b, Yield b ∈ later → log_text a `prefix_of` log_text b)
  ∧ ∀ shot,
      returned (run_script script_dropdown question env passes fin) = Ok shot →
      log_text a `prefix_of` log_text shot.
Proof.
  intros Htrace.
  destruct (run_script_staged script_dropdown question env passes fin)
    as (final & Hstaged & Hfinal).
  rewrite Htrace in Hstaged, Hfinal.
  rewrite reverse_app, reverse_cons, <- app_assoc in Hstaged. cbn [app] in Hstaged.
  split.
  - intros b Hb. rewrite <- elem_of_reverse in Hb.
    apply list_elem_of_split in Hb as (evs1 & evs2 & Hlater).
    rewrite Hlater, <- app_assoc in Hstaged. cbn [app] in Hstaged.
    apply staged_yield in Hstaged as (lines_b & _ & _ & -> & _ & Hstaged).
    apply staged_yield in Hstaged as (lines_a & more & -> & -> & _ & _).
    exists (join more). unfold join. apply concat_app.
  - intros shot Hshot. destruct (Hfinal shot Hshot) as [-> _];
      [by destruct earlier|].
    apply staged_yield in Hstaged as (lines_a & more & -> & -> & _ & _).
    exists (join more). unfold join. apply concat_app.
Qed.

Lemma run_script_log_grows_witness :
  let r := run_script (u "Qwen") (u "What is 6 x 7?")
             (RequestEnv (u "python") (u "t") ∅ 100)
             [Pass 101 (Process None) [u "thinking" ++ [10]] (Process None);
              Pass 102 (Process None) [u "Answer: 42" ++ [10]] (Process None)]
             (Ending [u "bye" ++ [10]] (Process (Some 0%Z))) in
  let a := Snapshot (u "⏳ 正在运行...") [] (u "thinking" ++ [10])
                    (u "logs/run_qwen_t.log") None in
  (∀ b, Yield b ∈ drop 2 (trace r) → log_text a `prefix_of` log_text b)
  ∧ ∀ shot, returned r = Ok shot → log_text a `prefix_of` log_text shot.
Proof.
  intros r a.
  apply (run_script_log_grows (u "Qwen") (u "What is 6 x 7?")
           (RequestEnv (u "python") (u "t") ∅ 100)
           [Pass 101 (Process None) [u "thinking" ++ [10]] (Process None);
            Pass 102 (Process None) [u "Answer: 42" ++ [10]] (Process None)]
           (Ending [u "bye" ++ [10]] (Process (Some 0%Z)))
           (take 1 (trace r)) a (drop 2 (trace r))).
  vm_compute. reflexivity.
Defined.

(** X22. The answer shown does not change once there is one: a snapshot with
    an answer is followed only by snapshots with that answer, the final one
    among them. *)
Theorem run_script_answer_stays
    (script_dropdown question : str) env passes fin
    (earlier : list event) (a : snapshot) (later : list event) :
  trace (run_script script_dropdown question env passes fin)
  = earlier ++ Yield a :: later →
  answer a ≠ [] →
  (∀ b, Yield b ∈ later → answer b = answer a)
  ∧ ∀ shot,
      returned (run_script script_dropdown question env passes fin) = Ok shot →
      answer shot = answer a.
Proof.
  intros Htrace Ha.
  destruct (run_script_staged script_dropdown question env passes fin)
    as (final & Hstaged & Hfinal).
  rewrite Htrace in Hstaged, Hfinal.
  rewrite reverse_app, reverse_cons, <- app_assoc in Hstaged. cbn [app] in Hstaged.
  split.
  - intros b Hb. rewrite <- elem_of_reverse in Hb.
    apply list_elem_of_split in Hb as (evs1 & evs2 & Hlater).
    rewrite Hlater, <- app_assoc in Hstaged. cbn [app] in Hstaged.
    apply staged_yield in Hstaged as (lines_b & _ & _ & _ & -> & Hstaged).
    apply staged_yield in Hstaged as (lines_a & more & -> & _ & Hanswer & _).
    rewrite Hanswer in *. apply extract_answer_grows.
    by apply extract_answer_found.
  - intros shot Hshot. destruct (Hfinal shot Hshot) as [_ ->];
      [by destruct earlier|].
    apply staged_yield in Hstaged as (lines_a & more & -> & _ & Hanswer & _).
    rewrite Hanswer in *. apply extract_answer_grows.
    by apply extract_answer_found.
Qed.

Lemma run_script_answer_stays_witness :
  let r := run_script (u "Qwen") (u "What is 6 x 7?")
             (RequestEnv (u "python") (u "t") ∅ 100)
             [Pass 101 (Process None) [u "Answer: 42" ++ [10]] (Process None);
              Pass 102 (Process None) [u "Answer: 7" ++ [10]] (Process None)]
             (Ending [u "Answer: 0" ++ [10]] (Process (Some 0%Z))) in
  (∀ b, Yield b ∈ drop 2 (trace r) → answer b = u "42")
  ∧ ∀ shot, returned r = Ok shot → answer shot = u "42".
Proof.
  intros r.
  apply (run_script_answer_stays (u "Qwen") (u "What is 6 x 7?")
           (RequestEnv (u "python") (u "t") ∅ 100)
           [Pass 101 (Process None) [u "Answer: 42" ++ [10]] (Process None);
            Pass 102 (Process None) [u "Answer: 7" ++ [10]] (Process None)]
           (Ending [u "Answer: 0" ++ [10]] (Process (Some 0%Z)))
           (take 1 (trace r))
           (Snapshot (u "⏳ 正在运行...") (u "42") (u "Answer: 42" ++ [10])
                     (u "logs/run_qwen_t.log") None)
           (drop 2 (trace r))).
  - vm_compute. reflexivity.
  - vm_compute. discriminate.
Defined.

Lemma drive_snapshots start file (passes : list pass) (d : driver) :
  (∀ s, Yield s ∈ events d → chat_history s = None ∧ log_file s = file) →
  ∀ s, Yield s ∈ events (drive start file passes d) →
       chat_history s = None ∧ log_file s = file.
Proof.
  revert d. induction passes as [|p passes IH]; intros d Hd; [done|].
  cbn [drive]. destruct (timeout <? time_now p - start)%Z.
  - destruct (poll (at_lock p)); cbn [events]; [done|].
    intros s [?|[?|?]%elem_of_cons]%elem_of_cons; [done..|]. by apply Hd.
  - apply IH. cbn [events]. intros s [[= ->]|?]%elem_of_cons; [done|].
    by apply Hd.
Qed.

(** X23. The snapshots yielded while the child runs carry no chat history,
    which comes with the final snapshot only, and all of them name the log
    file that the final snapshot names. *)
Theorem run_script_snapshots
    (script_dropdown question : str) (env : request_env)
    (passes : list pass) (fin : ending) (a : snapshot) :
  Yield a ∈ trace (run_script script_dropdown question env passes fin) →
  chat_history a = None
  ∧ ∀ shot,
      returned (run_script script_dropdown question env passes fin) = Ok shot →
      log_file a = log_file shot.
Proof.
  unfold run_script. destruct (dict_get script_dropdown SCRIPTS) as [name|];
    [|by intros ?%not_elem_of_nil].
  case_bool_decide; [by intros ?%not_elem_of_nil|].
  cbn [trace returned]. rewrite elem_of_reverse. intros Hin.
  apply drive_snapshots in Hin as [Hchat Hfile].
  - split; [done|]. intros shot Hshot.
    edestruct extract_chat_history_total as [h Hh].
    rewrite Hh, bind_Ok in Hshot. injection Hshot as <-. done.
  - cbn [events]. by intros s ?%list_elem_of_singleton.
Qed.

Lemma run_script_snapshots_witness :
  let r := run_script (u "Qwen") (u "What is 6 x 7?")
             (RequestEnv (u "python") (u "t") ∅ 100)
             [Pass 101 (Process None) [u "thinking" ++ [10]] (Process None)]
             (Ending [q "chat_history: [{'role': 'user', 'content': 'hi'}]"]
                     (Process (Some 0%Z))) in
  let a := Snapshot (u "⏳ 正在运行...") [] (u "thinking" ++ [10])
                    (u "logs/run_qwen_t.log") None in
  chat_history a = None
  ∧ ∀ shot, returned r = Ok shot → log_file a = log_file shot.
Proof.
  intros r a.
  apply (run_script_snapshots (u "Qwen") (u "What is 6 x 7?")
           (RequestEnv (u "python") (u "t") ∅ 100)
           [Pass 101 (Process None) [u "thinking" ++ [10]] (Process None)]
           (Ending [q "chat_history: [{'role': 'user', 'content': 'hi'}]"]
                   (Process (Some 0%Z))) a).
  rewrite list_elem_of_In. vm_compute. tauto.
Defined.

(** X24. The log shown at the end is the log file: when the child exits within
    the budget and the lines collected are the lines the relay thread put on
    the queue, the final log text is the text the relay thread wrote to the
    file. *)
Theorem run_script_log_file
    (script_dropdown script_name question : str) env passes fin
    (reads : list str) :
  dict_get script_dropdown SCRIPTS = Some script_name →
  strip question ≠ [] →
  Forall (within_budget (start_time env)) passes →
  (read_output reads [] []).2 = concat (List.map arrived passes) ++ late fin →
  ∃ shot,
    returned (run_script script_dropdown question env passes fin) = Ok shot
    ∧ log_text shot = (read_output reads [] []).1.
Proof.
  intros Hs Hq Hpasses Hqueue.
  unfold run_script. rewrite Hs. rewrite bool_decide_false by done.
  edestruct drive_passes as (yields & _ & _ & ->); [exact Hpasses|].
  cbn [returned logs log_queue app].
  edestruct extract_chat_history_total as [h ->]. rewrite bind_Ok.
  eexists. split; [done|]. cbn [log_text]. rewrite <- Hqueue.
  destruct (read_output_lines reads [] []) as (lines & rest & _ & -> & _).
  done.
Qed.

Lemma run_script_log_file_witness :
  ∃ shot,
    returned (run_script (u "Qwen") (u "What is 6 x 7?")
                (RequestEnv (u "python") (u "t") ∅ 100)
                [Pass 101 (Process None) [u "thinking" ++ [10]] (Process None)]
                (Ending [u "Answer: 42" ++ [10]] (Process (Some 0%Z))))
    = Ok shot
    ∧ log_text shot
      = (read_output [u "thinking" ++ [10]; u "Answer: 42" ++ [10]; []] [] []).1.
Proof.
  apply (run_script_log_file (u "Qwen") (u "run_qwen.py") (u "What is 6 x 7?")
           (RequestEnv (u "python") (u "t") ∅ 100)
           [Pass 101 (Process None) [u "thinking" ++ [10]] (Process None)]
           (Ending [u "Answer: 42" ++ [10]] (Process (Some 0%Z)))
           [u "thinking" ++ [10]; u "Answer: 42" ++ [10]; []]).
  - vm_compute. reflexivity.
  - vm_compute. discriminate.
  - repeat constructor; unfold within_budget, timeout; simpl; lia.
  - vm_compute. reflexivity.
Defined.

End runs.
